(** * The restaurant manager of [qualifier/qualifier.py]

    A shallow embedding of [RestaurantManager] and of its single entry
    point [__call__], followed by the properties of the dispatcher that
    the specification states about it.

    Conventions of the embedding.
    - A Python [dict] whose iteration order is observed ([self.staff]) is
      an association list in insertion order; [self.special], which is
      only read by key and mapped over, is a [gmap]; [self.busy], which is
      only tested for membership, is a [gset].
    - A Python [set] that is iterated (a value of [self.special]) is the
      list of its members in iteration order, together with the additions
      and removals the set object has gone through.  Where [set.add]
      places a new member, and how it reorders the old ones, is left to
      the implementation and may depend on all of that past: it is the
      parameter [SetOrder].
    - The awaitables [receive] and [send] of a request are named by a
      number; what a call answers is decided by an environment, and every
      call is recorded in a log.
    - A handler that raises keeps the mutations it made before raising.
    - Events are handled one at a time: a call runs to its end, return or
      raise, before the next event is looked at, as when every call is
      awaited in turn. *)

From stdpp Require Import base gmap sets list strings.

Open Scope string_scope.
Open Scope list_scope.
Set Warnings "-clear-no-such-hyp".

(** ** Requests *)

(** [request.scope], by the key ["type"].  A key that the handler
    subscripts and that tests leave out (["speciality"]) is an [option]:
    [None] is the key missing from the mapping. *)
Inductive Scope :=
  | StaffOnDuty (id : string) (speciality : option (list string))
  | StaffOffDuty (id : string)
  | Order (speciality : option string)
  | Other (type : string).

Record Request := mkRequest {
  scope : Scope;
  receive : nat;
  send : nat
}.

(** ** Exceptions and results *)

Inductive exn :=
  | KeyError (key : string)
  | UnboundLocalError (name : string)
  | AttributeError (attr : string)
  | Failure (code : nat).

Inductive outcome (A : Type) :=
  | Returned (a : A)
  | Raised (e : exn).
Arguments Returned {A} a.
Arguments Raised {A} e.

(** ** Insertion-ordered dictionaries *)

Fixpoint dict_get {V} (k : string) (d : list (string * V)) : option V :=
  match d with
  | [] => None
  | (k', v) :: d' => if decide (k = k') then Some v else dict_get k d'
  end.

(** [d[k] = v]: an existing key keeps its place, a new key goes last. *)
Fixpoint dict_set {V} (k : string) (v : V) (d : list (string * V))
  : list (string * V) :=
  match d with
  | [] => [(k, v)]
  | (k', v') :: d' =>
      if decide (k = k') then (k, v) :: d' else (k', v') :: dict_set k v d'
  end.

Fixpoint dict_del {V} (k : string) (d : list (string * V))
  : list (string * V) :=
  match d with
  | [] => []
  | (k', v') :: d' =>
      if decide (k = k') then d' else (k', v') :: dict_del k d'
  end.

Definition dict_keys {V} (d : list (string * V)) : list string := d.*1.

(** ** Sets that are iterated *)

(** What changed a set object: the additions of new members and the
    removals of members, in the order they happened.  An addition of a
    member already there and a membership test change nothing and are
    not recorded. *)
Inductive set_op :=
  | Added (x : string)
  | Removed (x : string).

(** A set object: its members in iteration order, and its past. *)
Record pyset := mkSet {
  members : list string;
  past : list set_op
}.

(** [set()] *)
Definition empty_set : pyset := {| members := []; past := [] |}.

(** The iteration order after a new member is added: any arrangement of
    the new member and the old ones, chosen from the past of the set
    object, the new member and the order so far.  Two sets that iterate
    alike may so differ after the same addition. *)
Class SetOrder := {
  place : list set_op → string → list string → list string;
  place_fresh : ∀ h x l, x ∉ l → place h x l ≡ₚ x :: l
}.

(** [s.add(x)] *)
Definition set_add {layout : SetOrder} (x : string) (s : pyset) : pyset :=
  if decide (x ∈ members s) then s
  else {| members := place (past s) x (members s);
          past := past s ++ [Added x] |}.

(** [if x in s: s.remove(x)]: the other members keep their order. *)
Definition set_discard (x : string) (s : pyset) : pyset :=
  if decide (x ∈ members s)
  then {| members := filter (λ y, y ≠ x) (members s);
          past := past s ++ [Removed x] |}
  else s.

(** Three orders a set may have: oldest member first, newest member
    first, and one that depends on the past of the set object. *)
Definition add_last (h : list set_op) (x : string) (l : list string)
  : list string :=
  l ++ [x].

Definition add_first (h : list set_op) (x : string) (l : list string)
  : list string :=
  x :: l.

Fixpoint removals (h : list set_op) : nat :=
  match h with
  | [] => 0
  | Added _ :: h' => removals h'
  | Removed _ :: h' => S (removals h')
  end.

Definition add_by_turns (h : list set_op) (x : string) (l : list string)
  : list string :=
  if Nat.even (removals h) then l ++ [x] else x :: l.

(** ** The manager and its world *)

Record RestaurantManager := mkManager {
  staff : list (string * Request);
  special : gmap string pyset;
  busy : gset string
}.

(** [RestaurantManager.__init__] *)
Definition init : RestaurantManager :=
  {| staff := []; special := ∅; busy := ∅ |}.

Inductive io_call :=
  | Receive (c : nat)
  | Send (c : nat) (obj : nat).

(** What a call answers, given the calls made before it.  The answer of
    a [Send] is dropped by the handler. *)
Definition environment : Type := list io_call → io_call → outcome nat.

Record world := mkWorld {
  self : RestaurantManager;
  calls : list io_call
}.

Definition M (A : Type) : Type := world → outcome A * world.

Definition ret {A} (a : A) : M A := λ w, (Returned a, w).

Definition raise {A} (e : exn) : M A := λ w, (Raised e, w).

Definition bind {A B} (m : M A) (k : A → M B) : M B :=
  λ w, match m w with
       | (Returned a, w') => k a w'
       | (Raised e, w') => (Raised e, w')
       end.

#[global] Instance M_ret : MRet M := @ret.
#[global] Instance M_bind : MBind M := λ A B k m, bind m k.

Definition get_self : M RestaurantManager := λ w, (Returned (self w), w).

Definition update (f : RestaurantManager → RestaurantManager) : M unit :=
  λ w, (Returned (), {| self := f (self w); calls := calls w |}).

Definition lift {A} (o : outcome A) : M A := λ w, (o, w).

(** [d[k]] on a mapping that may lack [k] *)
Definition subscript {A} (k : string) (o : option A) : M A :=
  match o with
  | Some a => ret a
  | None => raise (KeyError k)
  end.

(** [await c] *)
Definition await (env : environment) (c : io_call) : M nat :=
  λ w, (env (calls w) c, {| self := self w; calls := calls w ++ [c] |}).

(** ** The handler *)

Definition with_staff (f : list (string * Request) → list (string * Request))
  (m : RestaurantManager) : RestaurantManager :=
  {| staff := f (staff m); special := special m; busy := busy m |}.

Definition with_special
  (f : gmap string pyset → gmap string pyset)
  (m : RestaurantManager) : RestaurantManager :=
  {| staff := staff m; special := f (special m); busy := busy m |}.

Definition with_busy (f : gset string → gset string)
  (m : RestaurantManager) : RestaurantManager :=
  {| staff := staff m; special := special m; busy := f (busy m) |}.

(** [for sta in xs: if sta not in self.busy: found = self.staff[sta]; break],
    entered with [found] being [None].  The result is the pair of the
    locals [sta] and [found] after the loop; [sta] is [None] while it is
    unbound. *)
Fixpoint scan (m : RestaurantManager) (xs : list string) (sta : option string)
  : outcome (option string * option Request) :=
  match xs with
  | [] => Returned (sta, None)
  | x :: xs' =>
      if decide (x ∈ busy m) then scan m xs' (Some x)
      else match dict_get x (staff m) with
           | Some r => Returned (Some x, Some r)
           | None => Raised (KeyError x)
           end
  end.

(** The two loops of the ["order"] case, lines 53 to 66. *)
Definition select (m : RestaurantManager) (spe : string)
  : outcome (option string * option Request) :=
  match
    match special m !! spe with
    | Some cands => scan m (members cands) None
    | None => Returned (None, None)
    end
  with
  | Returned (sta, None) => scan m (dict_keys (staff m)) sta
  | r => r
  end.

(** [self.busy.remove(sta)] *)
Definition busy_remove (sta : string) : M unit :=
  m ← get_self;
  if decide (sta ∈ busy m) then update (with_busy (λ b, b ∖ {[sta]}))
  else raise (KeyError sta).

Section handler.
Context {layout : SetOrder}.
Variable env : environment.

(** The body of [for spe in _scope["speciality"]], lines 41 to 43. *)
Definition advertise (id : string) (sp : gmap string pyset)
  (spe : string) : gmap string pyset :=
  <[spe := set_add id (default empty_set (sp !! spe))]> sp.

(** [case "staff.onduty"], lines 38 to 43.  The registry entry is written
    before ["speciality"] is subscripted. *)
Definition onduty (request : Request) (id : string)
  (speciality : option (list string)) : M unit :=
  update (with_staff (dict_set id request));;
  caps ← subscript "speciality" speciality;
  update (with_special (λ sp, foldl (advertise id) sp caps)).

(** [case "staff.offduty"], lines 46 to 50. *)
Definition offduty (id : string) : M unit :=
  update (with_special (fmap (set_discard id)));;
  m ← get_self;
  match dict_get id (staff m) with
  | Some _ => update (with_staff (dict_del id))
  | None => raise (KeyError id)
  end.

(** [case "order"], lines 52 to 75.  [found.send] is looked up, and fails
    on [None], only after the requester's payload has been pulled. *)
Definition order (request : Request) (speciality : option string)
  : M unit :=
  spe ← subscript "speciality" speciality;
  m ← get_self;
  locals ← lift (select m spe);
  sta ← match locals.1 with
        | Some sta => ret sta
        | None => raise (UnboundLocalError "sta")
        end;
  update (with_busy (λ b, {[sta]} ∪ b));;
  full_order ← await env (Receive (receive request));
  found ← match locals.2 with
          | Some found => ret found
          | None => raise (AttributeError "send")
          end;
  await env (Send (send found) full_order);;
  result ← await env (Receive (receive found));
  await env (Send (send request) result);;
  busy_remove sta.

(** [RestaurantManager.__call__] *)
Definition call (request : Request) : M unit :=
  match scope request with
  | StaffOnDuty id speciality => onduty request id speciality
  | StaffOffDuty id => offduty id
  | Order speciality => order request speciality
  | Other _ => ret ()
  end.

(** The manager after an event, whether the handler returned or raised. *)
Definition after (w : world) (request : Request) : world :=
  (call request w).2.

(** A day: the events are handled one after the other. *)
Definition day (requests : list Request) (w : world) : world :=
  foldl after w requests.

End handler.

(** The start of a day: a fresh manager, no call made yet. *)
Definition dawn : world := {| self := init; calls := [] |}.

Definition oldest_first : SetOrder.
Proof.
  refine {| place := add_last |}; unfold add_last; intros h x l Hx.
  by rewrite Permutation_app_comm.
Defined.

Definition newest_first : SetOrder.
Proof. by refine {| place := add_first |}. Defined.

Definition by_turns : SetOrder.
Proof.
  refine {| place := add_by_turns |}; unfold add_by_turns; intros h x l Hx.
  destruct (Nat.even (removals h)); [|done]. by rewrite Permutation_app_comm.
Defined.

(** An environment in which nothing fails: a [Receive] on channel [c]
    answers the object [c + 100]. *)
Definition calm : environment :=
  λ _ c, match c with Receive c => Returned (c + 100) | Send _ _ => Returned 0 end.

(** An environment in which one call, the [n]-th of the day, fails. *)
Definition stormy (n : nat) : environment :=
  λ log c, if decide (length log = n) then Raised (Failure n) else calm log c.

(** ** Vocabulary of the properties *)

(** [candidates(capability)]: the members of the capability's set, in
    iteration order; empty when the capability is not a key. *)
Definition advertisers (sp : gmap string pyset) (spe : string)
  : list string :=
  from_option members [] (sp !! spe).

Definition registered (m : RestaurantManager) (id : string) : Prop :=
  id ∈ dict_keys (staff m).

#[global] Instance registered_dec m id : Decision (registered m id).
Proof. unfold registered. apply _. Defined.

(** The first member of [xs] that is not in the busy set. *)
Definition first_idle (m : RestaurantManager) (xs : list string)
  : option string :=
  head (filter (λ x, x ∉ busy m) xs).

Definition staff_event (r : Request) : Prop :=
  match scope r with
  | StaffOnDuty _ _ | StaffOffDuty _ => True
  | _ => False
  end.

(** The index never names an id that the registry lacks, and the registry
    has each key once. *)
Record consistent (m : RestaurantManager) : Prop := {
  index_within_registry :
    ∀ spe id, id ∈ advertisers (special m) spe → registered m id;
  registry_keys_unique : NoDup (dict_keys (staff m))
}.

(** The capabilities listed by the most recent [staff.onduty] event of
    [id]; none when there is no such event or it had no ["speciality"]. *)
Definition latest_listing_step (id : string) (acc : list string)
  (r : Request) : list string :=
  match scope r with
  | StaffOnDuty id' speciality =>
      if decide (id' = id) then default [] speciality else acc
  | _ => acc
  end.

Definition latest_listing (id : string) (events : list Request)
  : list string :=
  foldl (latest_listing_step id) [] events.

(** Whether some [staff.onduty] event of [id] listed [spe] since the last
    [staff.offduty] event of [id]. *)
Definition listing_step (id spe : string) (acc : bool) (r : Request) : bool :=
  match scope r with
  | StaffOnDuty id' speciality =>
      if decide (id' = id)
      then acc || bool_decide (spe ∈ default [] speciality)
      else acc
  | StaffOffDuty id' => if decide (id' = id) then false else acc
  | _ => acc
  end.

Definition listed_since_joining (id spe : string) (events : list Request)
  : bool :=
  foldl (listing_step id spe) false events.

#[global] Instance io_call_eq_dec : EqDecision io_call.
Proof. solve_decision. Defined.

(** How many times the worker behind [found] was asked for a result. *)
Definition served (found : Request) (log : list io_call) : nat :=
  length (filter (λ c, c = Receive (receive found)) log).

(** The choice that registration order would make: the first key of the
    registry that is in the capability's set and not in the busy set. *)
Definition earliest_idle_advertiser (m : RestaurantManager) (spe : string)
  : option string :=
  first_idle m
    (filter (λ id, id ∈ advertisers (special m) spe) (dict_keys (staff m))).

(** ** Sample events *)

Definition on_duty (id : string) (caps : list string) (rcv snd : nat)
  : Request :=
  {| scope := StaffOnDuty id (Some caps); receive := rcv; send := snd |}.

Definition off_duty (id : string) : Request :=
  {| scope := StaffOffDuty id; receive := 0; send := 0 |}.

Definition an_order (spe : string) : Request :=
  {| scope := Order (Some spe); receive := 90; send := 91 |}.

(** The staff and the orders of [test_even_staff_distribution]: each
    worker has a [receive] of its own, every other awaitable is the
    default of [create_request].  The test leaves ["speciality"] out of
    every scope; the parameters put it back. *)
Definition STAFF_IDS : list string :=
  ["jmMZkSGVBbCDgKKMMSNPS"; "HeLlOWoRlD123"; "iKnowThatYouAreReadingThis";
   "PyTHonDIscorDCoDEJam"; "iWAShereWRITINGthis"].

Definition test_staff (speciality : option (list string)) : list Request :=
  imap (λ i id, {| scope := StaffOnDuty id speciality;
                   receive := 10 + i; send := 1 |}) STAFF_IDS.

Definition test_order (speciality : option string) : Request :=
  {| scope := Order speciality; receive := 0; send := 1 |}.

(** The manager once the five workers of the test are on duty, each with
    an empty list of capabilities. *)
Definition kitchen {layout : SetOrder} : RestaurantManager :=
  self (day calm (test_staff (Some [])) dawn).

(** An environment in which no call ever raises. *)
Definition never_fails (env : environment) : Prop :=
  ∀ log c, ∃ v, env log c = Returned v.

(** The four calls of a relay, lines 69 to 73, for the payload [P] and the
    result [R]. *)
Definition relay_calls (request found : Request) (P R : nat) : list io_call :=
  [Receive (receive request); Send (send found) P;
   Receive (receive found); Send (send request) R].

(** The error of the first of the four relay calls that raises, if one
    does, when the relay for the worker [found] starts from the log
    [log]: what the environment does, whatever the handler makes of it. *)
Definition relay_failure (env : environment) (log : list io_call)
  (request found : Request) : option exn :=
  match env log (Receive (receive request)) with
  | Raised e => Some e
  | Returned P =>
      let log1 := log ++ [Receive (receive request)] in
      match env log1 (Send (send found) P) with
      | Raised e => Some e
      | Returned _ =>
          let log2 := log1 ++ [Send (send found) P] in
          match env log2 (Receive (receive found)) with
          | Raised e => Some e
          | Returned R =>
              let log3 := log2 ++ [Receive (receive found)] in
              match env log3 (Send (send request) R) with
              | Raised e => Some e
              | Returned _ => None
              end
          end
      end
  end.

(** [id] is a member of the set stored under the key [spe]. *)
Definition advertised (id : string) (sp : gmap string pyset)
  (spe : string) : Prop :=
  ∃ s, sp !! spe = Some s ∧ id ∈ members s.

(** ** Proof steps *)

(** Run a handler written in [M]. *)
Ltac unfold_M :=
  unfold mbind, M_bind, mret, M_ret, bind, ret, raise, update, get_self,
    lift, subscript, await in *;
  simpl in *.

(** Settle a decidable statement about sample events by evaluation. *)
Ltac by_computation := apply (bool_decide_unpack _); vm_compute; exact I.

(** ** Dictionaries *)

Lemma dict_get_set {V} (k k' : string) (v : V) d :
  dict_get k (dict_set k' v d) =
    if decide (k = k') then Some v else dict_get k d.
Proof.
  induction d as [|[k0 v0] d IH]; simpl.
  - by repeat case_decide.
  - destruct (decide (k' = k0)) as [->|Hne]; simpl.
    + by repeat case_decide.
    + rewrite IH. repeat case_decide; congruence.
Qed.

Lemma dict_keys_set {V} (k k' : string) (v : V) d :
  k ∈ dict_keys (dict_set k' v d) ↔ k = k' ∨ k ∈ dict_keys d.
Proof.
  unfold dict_keys. induction d as [|[k0 v0] d IH]; simpl.
  - set_solver.
  - case_decide; subst; simpl; set_solver.
Qed.

Lemma dict_keys_set_NoDup {V} (k : string) (v : V) d :
  NoDup (dict_keys d) → NoDup (dict_keys (dict_set k v d)).
Proof.
  unfold dict_keys. induction d as [|[k0 v0] d IH]; simpl; intros Hd.
  - apply NoDup_singleton.
  - apply NoDup_cons in Hd as [Hk0 Hd].
    case_decide; subst; simpl; apply NoDup_cons; split; auto.
    intros Hin. apply (dict_keys_set k0 k v d) in Hin as [?|?]; auto.
Qed.

Lemma dict_get_keys {V} (k : string) (d : list (string * V)) :
  is_Some (dict_get k d) ↔ k ∈ dict_keys d.
Proof.
  unfold dict_keys. induction d as [|[k0 v0] d IH]; simpl.
  - split; [by intros [? ?] | by intros ?%elem_of_nil].
  - case_decide; subst.
    + split; [set_solver | eauto].
    + rewrite IH. set_solver.
Qed.

Lemma dict_get_None {V} (k : string) (d : list (string * V)) :
  dict_get k d = None ↔ k ∉ dict_keys d.
Proof. rewrite <- dict_get_keys, eq_None_not_Some. done. Qed.

Lemma dict_keys_del {V} (k k' : string) (d : list (string * V)) :
  NoDup (dict_keys d) →
  k ∈ dict_keys (dict_del k' d) ↔ k ≠ k' ∧ k ∈ dict_keys d.
Proof.
  unfold dict_keys. induction d as [|[k0 v0] d IH]; simpl; intros Hd.
  - set_solver.
  - apply NoDup_cons in Hd as [Hk0 Hd]. specialize (IH Hd).
    case_decide; subst; simpl; set_solver.
Qed.

Lemma dict_keys_del_NoDup {V} (k : string) (d : list (string * V)) :
  NoDup (dict_keys d) → NoDup (dict_keys (dict_del k d)).
Proof.
  unfold dict_keys. induction d as [|[k0 v0] d IH]; simpl; intros Hd.
  - done.
  - pose proof Hd as Hd'. apply NoDup_cons in Hd as [Hk0 Hd].
    case_decide; subst; simpl; [done|].
    apply NoDup_cons; split; auto.
    intros Hin. apply (dict_keys_del k0 k d Hd) in Hin. tauto.
Qed.

Lemma dict_get_del {V} (k k' : string) (d : list (string * V)) :
  NoDup (dict_keys d) →
  dict_get k (dict_del k' d) = if decide (k = k') then None else dict_get k d.
Proof.
  intros Hd. case_decide; subst.
  - apply dict_get_None. rewrite dict_keys_del by done. tauto.
  - clear Hd. induction d as [|[k0 v0] d IH]; simpl; [done|].
    destruct (decide (k' = k0)); subst; simpl.
    + by rewrite decide_False.
    + by rewrite IH.
Qed.

Lemma dict_del_absent {V} (k : string) (d : list (string * V)) :
  k ∉ dict_keys d → dict_del k d = d.
Proof.
  unfold dict_keys. induction d as [|[k0 v0] d IH]; simpl; [done|].
  intros [Hne Hk]%not_elem_of_cons.
  rewrite decide_False by done. by rewrite IH.
Qed.

(** ** Sets *)

Lemma elem_of_set_add `{SetOrder} (x y : string) (s : pyset) :
  y ∈ members (set_add x s) ↔ y = x ∨ y ∈ members s.
Proof.
  unfold set_add. destruct (decide (x ∈ members s)) as [Hx|Hx]; simpl.
  - set_solver.
  - rewrite place_fresh by done. set_solver.
Qed.

Lemma set_add_member `{SetOrder} (x : string) (s : pyset) :
  x ∈ members s → set_add x s = s.
Proof. intros Hx. unfold set_add. by rewrite decide_True. Qed.

Lemma elem_of_set_discard (x y : string) (s : pyset) :
  y ∈ members (set_discard x s) ↔ y ≠ x ∧ y ∈ members s.
Proof.
  unfold set_discard. case_decide; simpl.
  - rewrite list_elem_of_filter. tauto.
  - set_solver.
Qed.

Lemma set_discard_absent (x : string) (s : pyset) :
  x ∉ members s → set_discard x s = s.
Proof. intros Hx. unfold set_discard. by rewrite decide_False. Qed.

(** ** The capability index under the two staff events *)

Section index.
Context {layout : SetOrder}.

Lemma advertisers_advertise id sp c spe :
  advertisers (advertise id sp c) spe =
    if decide (c = spe)
    then members (set_add id (default empty_set (sp !! c)))
    else advertisers sp spe.
Proof.
  unfold advertisers, advertise. case_decide; subst.
  - by rewrite lookup_insert_eq.
  - by rewrite lookup_insert_ne.
Qed.

Lemma advertisers_default sp spe :
  members (default empty_set (sp !! spe)) = advertisers sp spe.
Proof. unfold advertisers. by destruct (sp !! spe). Qed.

Lemma elem_of_advertisers_fold id caps sp spe y :
  y ∈ advertisers (foldl (advertise id) sp caps) spe ↔
  y ∈ advertisers sp spe ∨ (y = id ∧ spe ∈ caps).
Proof.
  revert sp. induction caps as [|c caps IH]; intros sp; simpl.
  - rewrite elem_of_nil. tauto.
  - rewrite IH, advertisers_advertise, elem_of_cons.
    case_decide; subst;
      [rewrite elem_of_set_add, advertisers_default|]; naive_solver.
Qed.

Lemma elem_of_advertisers_discard id sp spe y :
  y ∈ advertisers (set_discard id <$> sp) spe ↔
  y ≠ id ∧ y ∈ advertisers sp spe.
Proof.
  unfold advertisers. rewrite lookup_fmap.
  destruct (sp !! spe) as [s|]; simpl.
  - apply elem_of_set_discard.
  - rewrite elem_of_nil. tauto.
Qed.

Lemma discard_unadvertised id sp :
  (∀ spe, id ∉ advertisers sp spe) → set_discard id <$> sp = sp.
Proof.
  intros Hid. apply map_eq. intros spe. rewrite lookup_fmap.
  specialize (Hid spe). unfold advertisers in Hid.
  destruct (sp !! spe) as [l|]; simpl in *; [|done].
  by rewrite set_discard_absent.
Qed.

Variable env : environment.

Lemma after_onduty w request id speciality :
  scope request = StaffOnDuty id speciality →
  after env w request =
    {| self :=
         {| staff := dict_set id request (staff (self w));
            special := match speciality with
                       | Some caps => foldl (advertise id) (special (self w)) caps
                       | None => special (self w)
                       end;
            busy := busy (self w) |};
       calls := calls w |}.
Proof.
  intros Hs. unfold after, call. rewrite Hs. unfold onduty.
  destruct speciality; unfold_M; done.
Qed.

Lemma after_offduty w request id :
  scope request = StaffOffDuty id →
  after env w request =
    {| self :=
         {| staff := dict_del id (staff (self w));
            special := set_discard id <$> special (self w);
            busy := busy (self w) |};
       calls := calls w |}.
Proof.
  intros Hs. unfold after, call. rewrite Hs. unfold offduty. unfold_M.
  destruct (dict_get id (staff (self w))) eqn:Hg; simpl; [done|].
  apply dict_get_None in Hg. unfold with_special.
  by rewrite (dict_del_absent _ _ Hg).
Qed.

Lemma after_order w request speciality :
  scope request = Order speciality →
  staff (self (after env w request)) = staff (self w) ∧
  special (self (after env w request)) = special (self w).
Proof.
  intros Hs. unfold after, call. rewrite Hs. unfold order, busy_remove.
  destruct speciality as [spe|]; unfold_M; [|done].
  destruct (select (self w) spe) as [[[sta|] found]|e]; simpl; try done.
  destruct (env (calls w) _); simpl; try done.
  destruct found as [found|]; simpl; try done.
  destruct (env _ (Send _ _)); simpl; try done.
  destruct (env _ (Receive (receive found))); simpl; try done.
  destruct (env _ (Send _ _)); simpl; try done.
  case_decide; done.
Qed.

Lemma after_other w request type :
  scope request = Other type → after env w request = w.
Proof. intros Hs. unfold after, call. by rewrite Hs. Qed.

Lemma day_snoc requests request w :
  day env (requests ++ [request]) w = after env (day env requests w) request.
Proof. unfold day. by rewrite foldl_snoc. Qed.

(** Every event keeps the index within the registry. *)
Lemma after_consistent w request :
  consistent (self w) → consistent (self (after env w request)).
Proof.
  intros [Hin Hnd]. destruct (scope request) as [id sp|id|sp|ty] eqn:Hs.
  - rewrite (after_onduty _ _ _ _ Hs). split; unfold registered; simpl.
    + intros spe y Hy. apply dict_keys_set.
      destruct sp as [caps|].
      * apply elem_of_advertisers_fold in Hy as [Hy|[-> _]]; [|by left].
        right. by apply (Hin spe).
      * right. by apply (Hin spe).
    + by apply dict_keys_set_NoDup.
  - rewrite (after_offduty _ _ _ Hs). split; unfold registered; simpl.
    + intros spe y Hy.
      apply elem_of_advertisers_discard in Hy as [Hne Hy].
      apply dict_keys_del; [done|]. split; [done|]. by apply (Hin spe).
    + by apply dict_keys_del_NoDup.
  - destruct (after_order w request sp Hs) as [Hst Hsp].
    split; unfold registered; rewrite Hst; [rewrite Hsp|]; done.
  - by rewrite (after_other _ _ _ Hs).
Qed.

Lemma dawn_consistent : consistent (self dawn).
Proof.
  split; simpl.
  - intros spe id Hid. unfold advertisers in Hid.
    rewrite lookup_empty in Hid. by apply elem_of_nil in Hid.
  - apply NoDup_nil_2.
Qed.

Lemma day_consistent requests w :
  consistent (self w) → consistent (self (day env requests w)).
Proof.
  revert w. induction requests as [|r rs IH]; intros w Hw; simpl; [done|].
  apply IH. by apply after_consistent.
Qed.

End index.

(** The order of a capability set is not a matter of its members alone:
    under [by_turns] two days leave the same members in the same order,
    and the same registration then extends them differently. *)
Lemma same_members_different_order :
  let ann := on_duty "ann" ["grill"] 1 2 in
  let bob := on_duty "bob" ["grill"] 3 4 in
  let cho := on_duty "cho" ["grill"] 5 6 in
  let dee := on_duty "dee" ["grill"] 7 8 in
  let w1 := day (layout := by_turns) calm [ann; bob] dawn in
  let w2 := day (layout := by_turns) calm [ann; bob; cho; off_duty "cho"] dawn in
  advertisers (special (self w1)) "grill" = ["ann"; "bob"] ∧
  advertisers (special (self w2)) "grill" = ["ann"; "bob"] ∧
  advertisers (special (self (after (layout := by_turns) calm w1 dee))) "grill"
    = ["ann"; "bob"; "dee"] ∧
  advertisers (special (self (after (layout := by_turns) calm w2 dee))) "grill"
    = ["dee"; "ann"; "bob"].
Proof. repeat split; vm_compute; reflexivity. Qed.

(** ** Registry and index over a day of staff events *)

(** What the index holds, in terms of the events so far. *)
Lemma index_tracks_listings {layout : SetOrder} env events id spe :
  id ∈ advertisers (special (self (day env events dawn))) spe ↔
  listed_since_joining id spe events = true.
Proof.
  induction events as [|r events IH] using rev_ind.
  - simpl. unfold advertisers. rewrite lookup_empty. simpl.
    rewrite elem_of_nil. done.
  - rewrite day_snoc. unfold listed_since_joining in *. rewrite foldl_snoc.
    set (w := day env events dawn) in *.
    set (acc := foldl (listing_step id spe) false events) in *.
    unfold listing_step.
    destruct (scope r) as [id' sp|id'|sp|ty] eqn:Hs.
    + rewrite (after_onduty _ _ _ _ _ Hs). simpl.
      destruct sp as [caps|]; simpl.
      * rewrite elem_of_advertisers_fold, IH.
        case_decide; subst.
        -- rewrite orb_true_iff, bool_decide_eq_true. naive_solver.
        -- naive_solver.
      * rewrite IH. case_decide; [|done]. by rewrite orb_false_r.
    + rewrite (after_offduty _ _ _ _ Hs). simpl.
      rewrite elem_of_advertisers_discard, IH.
      case_decide; subst; naive_solver.
    + destruct (after_order env w r sp Hs) as [_ ->]. done.
    + by rewrite (after_other _ _ _ _ Hs).
Qed.

(** C3: after any finite sequence of staff.onduty and staff.offduty events
    from the initial empty manager, every worker id held in any capability
    set of the index is a key of the staff registry. *)
Theorem index_ids_are_registered {layout : SetOrder} env
  (events : list Request) :
  Forall staff_event events →
  ∀ spe ids id,
    special (self (day env events dawn)) !! spe = Some ids →
    id ∈ members ids →
    id ∈ dict_keys (staff (self (day env events dawn))).
Proof.
  intros _ spe ids id Hspe Hid.
  destruct (day_consistent env events dawn dawn_consistent) as [Hin _].
  apply (Hin spe). unfold advertisers. by rewrite Hspe.
Qed.

(** C4, as amended: in every state reached by staff.onduty and
    staff.offduty events from the initial empty manager, a worker id is in
    the index's set for a capability exactly when the worker is in the
    registry and some staff.onduty event of that id since its last
    staff.offduty event listed the capability. *)
Theorem index_holds_listings_since_joining {layout : SetOrder} env
  (events : list Request) :
  Forall staff_event events →
  ∀ id spe,
    id ∈ advertisers (special (self (day env events dawn))) spe ↔
    registered (self (day env events dawn)) id ∧
    listed_since_joining id spe events = true.
Proof.
  intros _ id spe. rewrite <- index_tracks_listings. split; [|by intros []].
  intros Hid. split; [|done].
  destruct (day_consistent env events dawn dawn_consistent) as [Hin _].
  by apply (Hin spe).
Qed.

Lemma index_ids_are_registered_witness :
  let events := [on_duty "ann" ["grill"] 1 2;
                 on_duty "bob" ["grill"; "fry"] 3 4;
                 off_duty "ann"] in
  let m := self (day (layout := oldest_first) calm events dawn) in
  let grill := {| members := ["bob"];
                  past := [Added "ann"; Added "bob"; Removed "ann"] |} in
  Forall staff_event events ∧
  special m !! "grill" = Some grill ∧
  "bob" ∈ members grill ∧
  "bob" ∈ dict_keys (staff m).
Proof.
  intros events m grill.
  assert (Hev : Forall staff_event events) by (repeat constructor).
  assert (Hsp : special m !! "grill" = Some grill) by (vm_compute; reflexivity).
  assert (Hin : "bob" ∈ members grill) by apply list_elem_of_here.
  split; [exact Hev|]. split; [exact Hsp|]. split; [exact Hin|].
  exact (index_ids_are_registered (layout := oldest_first) calm events Hev
           "grill" grill "bob" Hsp Hin).
Defined.

(** C4, as stated, fails: a worker that goes on duty twice stays in the
    set of a capability that only its first registration listed. *)
Lemma latest_listing_counterexample :
  let events := [on_duty "ann" ["grill"] 1 2; on_duty "ann" ["fry"] 1 2] in
  let m := self (day (layout := oldest_first) calm events dawn) in
  Forall staff_event events ∧
  ¬ ("ann" ∈ advertisers (special m) "grill" ↔
     registered m "ann" ∧ "grill" ∈ latest_listing "ann" events).
Proof.
  intros events m. split; [repeat constructor|].
  intros [Hclaim _].
  assert (Hin : "ann" ∈ advertisers (special m) "grill") by by_computation.
  destruct (Hclaim Hin) as [_ Hlatest].
  revert Hlatest. by_computation.
Qed.

Lemma index_holds_listings_since_joining_witness :
  let events := [on_duty "ann" ["grill"] 1 2; on_duty "ann" ["fry"] 1 2;
                 on_duty "bob" ["fry"] 3 4; off_duty "bob"] in
  let m := self (day (layout := oldest_first) calm events dawn) in
  Forall staff_event events ∧
  ("ann" ∈ advertisers (special m) "grill" ↔
   registered m "ann" ∧ listed_since_joining "ann" "grill" events = true) ∧
  ("bob" ∈ advertisers (special m) "fry" ↔
   registered m "bob" ∧ listed_since_joining "bob" "fry" events = true).
Proof.
  intros events m.
  assert (Hev : Forall staff_event events) by (repeat constructor).
  split; [exact Hev|]. split.
  - exact (index_holds_listings_since_joining (layout := oldest_first)
             calm events Hev "ann" "grill").
  - exact (index_holds_listings_since_joining (layout := oldest_first)
             calm events Hev "bob" "fry").
Defined.

(** C9: in a state reached from the initial empty manager, a
    staff.offduty event for an id that is not a key of the registry raises
    a lookup failure and leaves the manager as it was; for a registered id
    it returns, the id is no longer a key of the registry nor a member of
    any capability set, and every other entry and member stays. *)
Theorem offduty_unknown_raises_known_leaves {layout : SetOrder} env
  (events : list Request) (request : Request) (id : string) :
  scope request = StaffOffDuty id →
  let w := day env events dawn in
  let m' := self (call env request w).2 in
  (¬ registered (self w) id →
     call env request w = (Raised (KeyError id), w)) ∧
  (registered (self w) id →
     (call env request w).1 = Returned () ∧
     ¬ registered m' id ∧
     (∀ spe, id ∉ advertisers (special m') spe) ∧
     (∀ k, k ≠ id → dict_get k (staff m') = dict_get k (staff (self w))) ∧
     (∀ spe y, y ≠ id →
        y ∈ advertisers (special m') spe ↔
        y ∈ advertisers (special (self w)) spe)).
Proof.
  intros Hs w m'.
  destruct (day_consistent env events dawn dawn_consistent) as [Hin Hnd].
  fold w in Hin, Hnd. split.
  - intros Hid. unfold call. rewrite Hs. unfold offduty. unfold_M.
    rewrite (proj2 (dict_get_None _ _) Hid).
    unfold with_special. rewrite discard_unadvertised.
    + by destruct w as [[] ?].
    + intros spe Hspe. by apply Hid, (Hin spe).
  - intros Hid.
    assert (Hm' : m' = self (after env w request)) by done.
    rewrite (after_offduty _ _ _ _ Hs) in Hm'. simpl in Hm'.
    split.
    { unfold call. rewrite Hs. unfold offduty. unfold_M.
      apply dict_get_keys in Hid as [r ->]. done. }
    rewrite Hm'. unfold registered. simpl.
    split; [|split; [|split]].
    + rewrite dict_keys_del by done. tauto.
    + intros spe. rewrite elem_of_advertisers_discard. tauto.
    + intros k Hk. rewrite dict_get_del by done. by rewrite decide_False.
    + intros spe y Hy. rewrite elem_of_advertisers_discard. tauto.
Qed.

Lemma offduty_unknown_raises_known_leaves_witness :
  let events := [on_duty "ann" ["grill"] 1 2; on_duty "bob" ["grill"] 3 4] in
  let w := day (layout := oldest_first) calm events dawn in
  (scope (off_duty "cho") = StaffOffDuty "cho" ∧
   ¬ registered (self w) "cho" ∧
   call (layout := oldest_first) calm (off_duty "cho") w
     = (Raised (KeyError "cho"), w)) ∧
  (scope (off_duty "ann") = StaffOffDuty "ann" ∧
   registered (self w) "ann" ∧
   (call (layout := oldest_first) calm (off_duty "ann") w).1 = Returned () ∧
   ¬ registered
       (self (call (layout := oldest_first) calm (off_duty "ann") w).2) "ann" ∧
   "ann" ∉ advertisers
     (special (self (call (layout := oldest_first) calm (off_duty "ann") w).2))
     "grill").
Proof.
  intros events w. split.
  - assert (Hno : ¬ registered (self w) "cho") by by_computation.
    split; [reflexivity|]. split; [exact Hno|].
    exact (proj1 (offduty_unknown_raises_known_leaves
                    (layout := oldest_first) calm events (off_duty "cho")
                    "cho" eq_refl) Hno).
  - assert (Hyes : registered (self w) "ann") by by_computation.
    split; [reflexivity|]. split; [exact Hyes|].
    destruct (proj2 (offduty_unknown_raises_known_leaves
                       (layout := oldest_first) calm events (off_duty "ann")
                       "ann" eq_refl) Hyes) as (Hret & Hgone & Hsets & _ & _).
    split; [exact Hret|]. split; [exact Hgone|]. exact (Hsets "grill").
Defined.

(** C10: a staff.onduty event removes no id from any capability set.  It
    stores the request as the registry entry of its id, every member of
    every capability set stays a member, and the id joins the set of each
    capability that the event lists. *)
Theorem onduty_removes_no_member {layout : SetOrder} env (w : world)
  (request : Request) (id : string) (speciality : option (list string)) :
  scope request = StaffOnDuty id speciality →
  let m' := self (after env w request) in
  dict_get id (staff m') = Some request ∧
  (∀ spe y, y ∈ advertisers (special (self w)) spe →
            y ∈ advertisers (special m') spe) ∧
  (∀ caps spe, speciality = Some caps → spe ∈ caps →
               id ∈ advertisers (special m') spe).
Proof.
  intros Hs m'. unfold m'. rewrite (after_onduty _ _ _ _ _ Hs). simpl.
  split; [|split].
  - rewrite dict_get_set. by rewrite decide_True.
  - intros spe y Hy. destruct speciality as [caps|]; [|done].
    apply elem_of_advertisers_fold. by left.
  - intros caps spe -> Hspe. apply elem_of_advertisers_fold. by right.
Qed.

Lemma onduty_removes_no_member_witness :
  let w := day (layout := oldest_first) calm [on_duty "ann" ["grill"] 1 2] dawn in
  let again := on_duty "ann" ["fry"] 7 8 in
  let m' := self (after (layout := oldest_first) calm w again) in
  scope again = StaffOnDuty "ann" (Some ["fry"]) ∧
  dict_get "ann" (staff m') = Some again ∧
  "ann" ∈ advertisers (special m') "grill" ∧
  "ann" ∈ advertisers (special m') "fry".
Proof.
  intros w again m'.
  destruct (onduty_removes_no_member (layout := oldest_first) calm w again
              "ann" (Some ["fry"]) eq_refl) as (Hget & Hold & Hnew).
  split; [reflexivity|]. split; [exact Hget|]. split.
  - apply Hold. by_computation.
  - apply (Hnew ["fry"]); [reflexivity | apply list_elem_of_here].
Defined.

(** ** Selection *)

Lemma first_idle_cons m x xs :
  first_idle m (x :: xs) =
    if decide (x ∈ busy m) then first_idle m xs else Some x.
Proof.
  unfold first_idle. case_decide.
  - by rewrite filter_cons_False by (intros Hx; by apply Hx).
  - by rewrite filter_cons_True.
Qed.

Lemma first_idle_Some m xs x :
  first_idle m xs = Some x → x ∈ xs ∧ x ∉ busy m.
Proof.
  induction xs as [|y xs IH]; [done|].
  rewrite first_idle_cons. case_decide.
  - intros [? ?]%IH. split; [by right | done].
  - intros [= ->]. split; [by left | done].
Qed.

Lemma first_idle_None m xs :
  first_idle m xs = None ↔ ∀ x, x ∈ xs → x ∈ busy m.
Proof.
  induction xs as [|y xs IH].
  - split; [|done]. by intros _ x ?%elem_of_nil.
  - rewrite first_idle_cons. case_decide.
    + rewrite IH. split.
      * intros Hall x [->|Hx]%elem_of_cons; auto.
      * intros Hall x Hx. apply Hall. by right.
    + split; [done|]. intros Hall. exfalso. apply H, Hall. by left.
Qed.

Lemma scan_found m xs sta x r :
  first_idle m xs = Some x → dict_get x (staff m) = Some r →
  scan m xs sta = Returned (Some x, Some r).
Proof.
  revert sta. induction xs as [|y xs IH]; intros sta; [done|].
  rewrite first_idle_cons. simpl. case_decide.
  - intros Hx Hr. by apply IH.
  - intros [= ->] ->. done.
Qed.

Lemma scan_none m xs sta :
  first_idle m xs = None →
  scan m xs sta = Returned (from_option Some sta (last xs), None).
Proof.
  revert sta. induction xs as [|y xs IH]; intros sta; [done|].
  rewrite first_idle_cons. simpl. case_decide; [|done].
  intros Hxs. rewrite (IH _ Hxs), last_cons. by destruct (last xs).
Qed.

Lemma scan_Some m xs sta0 sta found :
  scan m xs sta0 = Returned (Some sta, Some found) →
  first_idle m xs = Some sta ∧ dict_get sta (staff m) = Some found.
Proof.
  revert sta0. induction xs as [|y xs IH]; intros sta0; simpl; [done|].
  rewrite first_idle_cons. case_decide; [apply IH|].
  destruct (dict_get y (staff m)) eqn:Hy; [|done]. by intros [= <- <-].
Qed.

(** A worker that the two loops find is not in the busy set, and the
    handle found is its registry entry. *)
Lemma select_Some m spe sta found :
  select m spe = Returned (Some sta, Some found) →
  (sta ∉ busy m) ∧ dict_get sta (staff m) = Some found.
Proof.
  unfold select.
  destruct (special m !! spe) as [cands|].
  - destruct (scan m (members cands) None) as [[sta1 [found1|]]|e] eqn:Hscan.
    + intros [= -> ->]. apply scan_Some in Hscan as [Hidle Hget].
      apply first_idle_Some in Hidle as [_ Hidle]. done.
    + intros Hscan2. apply scan_Some in Hscan2 as [Hidle Hget].
      apply first_idle_Some in Hidle as [_ Hidle]. done.
    + done.
  - intros Hscan2. apply scan_Some in Hscan2 as [Hidle Hget].
    apply first_idle_Some in Hidle as [_ Hidle]. done.
Qed.

(** What the two loops return in a consistent manager. *)
Lemma select_consistent m spe :
  consistent m →
  select m spe =
    match first_idle m (advertisers (special m) spe) with
    | Some sta => Returned (Some sta, dict_get sta (staff m))
    | None =>
        match first_idle m (dict_keys (staff m)) with
        | Some sta => Returned (Some sta, dict_get sta (staff m))
        | None =>
            Returned
              (from_option Some
                 (from_option Some None (last (advertisers (special m) spe)))
                 (last (dict_keys (staff m))), None)
        end
    end.
Proof.
  intros [Hin _]. unfold select.
  assert (Hkeys : ∀ sta0,
    scan m (dict_keys (staff m)) sta0 =
      match first_idle m (dict_keys (staff m)) with
      | Some sta => Returned (Some sta, dict_get sta (staff m))
      | None => Returned (from_option Some sta0 (last (dict_keys (staff m))), None)
      end).
  { intros sta0. destruct (first_idle m (dict_keys (staff m))) as [sta|] eqn:Hk.
    - destruct (first_idle_Some _ _ _ Hk) as [Hreg _].
      apply dict_get_keys in Hreg as [r Hr]. rewrite Hr. by apply scan_found.
    - by apply scan_none. }
  specialize (Hin spe). unfold advertisers in *.
  destruct (special m !! spe) as [cands|]; simpl in *.
  - destruct (first_idle m (members cands)) as [sta|] eqn:Hc.
    + destruct (first_idle_Some _ _ _ Hc) as [Hreg _].
      apply Hin, dict_get_keys in Hreg as [r Hr]. rewrite Hr.
      by rewrite (scan_found _ _ _ _ _ Hc Hr).
    + rewrite (scan_none _ _ _ Hc). apply Hkeys.
  - apply Hkeys.
Qed.

(** ** Orders *)

Section orders.
Context {layout : SetOrder}.
Variable env : environment.

(** Lines 68 to 75 once the loops have bound [sta] and [found]. *)
Lemma call_order_selected w request spe sta found :
  scope request = Order (Some spe) →
  select (self w) spe = Returned (Some sta, Some found) →
  call env request w =
    (update (with_busy (λ b, {[sta]} ∪ b));;
     full_order ← await env (Receive (receive request));
     await env (Send (send found) full_order);;
     result ← await env (Receive (receive found));
     await env (Send (send request) result);;
     busy_remove sta) w.
Proof.
  intros Hs Hsel. unfold call. rewrite Hs. unfold order. unfold_M.
  rewrite Hsel. simpl.
  destruct (env (calls w) (Receive (receive request))); done.
Qed.

(** Lines 68 to 70 when the loops leave [found] at [None]. *)
Lemma call_order_not_found w request spe sta :
  scope request = Order (Some spe) →
  select (self w) spe = Returned (sta, None) →
  (call env request w).1 =
    match sta with
    | None => Raised (UnboundLocalError "sta")
    | Some _ =>
        match env (calls w) (Receive (receive request)) with
        | Returned _ => Raised (AttributeError "send")
        | Raised e => Raised e
        end
    end.
Proof.
  intros Hs Hsel. unfold call. rewrite Hs. unfold order. unfold_M.
  rewrite Hsel. simpl. destruct sta; simpl; [|done].
  destruct (env (calls w) (Receive (receive request))); done.
Qed.

(** Lines 68 to 75 when each of the four calls returns. *)
Lemma call_order_all_return w request spe sta found (P R x y : nat) :
  let c1 := Receive (receive request) in
  let c2 := Send (send found) P in
  let c3 := Receive (receive found) in
  let c4 := Send (send request) R in
  scope request = Order (Some spe) →
  select (self w) spe = Returned (Some sta, Some found) →
  env (calls w) c1 = Returned P →
  env (calls w ++ [c1]) c2 = Returned x →
  env ((calls w ++ [c1]) ++ [c2]) c3 = Returned R →
  env (((calls w ++ [c1]) ++ [c2]) ++ [c3]) c4 = Returned y →
  call env request w =
    (Returned (), {| self := self w; calls := calls w ++ [c1; c2; c3; c4] |}).
Proof.
  intros c1 c2 c3 c4 Hs Hsel H1 H2 H3 H4.
  rewrite (call_order_selected _ _ _ _ _ Hs Hsel).
  apply select_Some in Hsel as [Hidle _].
  unfold busy_remove. unfold_M. fold c1. rewrite H1. simpl.
  fold c2. rewrite H2. simpl. fold c3. rewrite H3. simpl.
  fold c4. rewrite H4. simpl.
  rewrite decide_True by set_solver. simpl.
  rewrite <- !app_assoc. simpl. do 2 f_equal.
  destruct (self w) as [st sp b]. unfold with_busy. simpl in *.
  f_equal. set_solver.
Qed.

End orders.

(** C1, as amended: when an order event selects a worker, the worker was
    not in the busy set.  If each of the four relay calls returns, the
    dispatch call returns and the busy set is again what it was before
    the call, so the id marked has been removed.  If one of the relay
    calls raises, the dispatch call raises that same error and the id
    marked is still in the busy set. *)
Theorem busy_released_when_call_returns {layout : SetOrder} env (w : world)
  (request : Request) (spe sta : string) (found : Request) :
  scope request = Order (Some spe) →
  select (self w) spe = Returned (Some sta, Some found) →
  (sta ∉ busy (self w)) ∧
  match relay_failure env (calls w) request found with
  | None =>
      (call env request w).1 = Returned () ∧
      busy (self (call env request w).2) = busy (self w)
  | Some e =>
      (call env request w).1 = Raised e ∧
      busy (self (call env request w).2) = {[sta]} ∪ busy (self w)
  end.
Proof.
  intros Hs Hsel. destruct (select_Some _ _ _ _ Hsel) as [Hidle _].
  split; [done|]. rewrite (call_order_selected env _ _ _ _ _ Hs Hsel).
  unfold relay_failure, busy_remove. unfold_M.
  destruct (env (calls w) _); simpl; [|done].
  destruct (env (_ ++ [_]) (Send _ _)); simpl; [|done].
  destruct (env (_ ++ [_]) (Receive _)); simpl; [|done].
  destruct (env (_ ++ [_]) (Send _ _)); simpl; [|done].
  rewrite decide_True by set_solver. simpl. split; [done|]. set_solver.
Qed.

Lemma busy_released_when_call_returns_witness :
  let ann := on_duty "ann" ["grill"] 1 2 in
  let w := day (layout := oldest_first) calm [ann] dawn in
  let request := an_order "grill" in
  scope request = Order (Some "grill") ∧
  select (self w) "grill" = Returned (Some "ann", Some ann) ∧
  (("ann" ∉ busy (self w)) ∧
   (call (layout := oldest_first) calm request w).1 = Returned () ∧
   busy (self (call (layout := oldest_first) calm request w).2)
     = busy (self w)) ∧
  (("ann" ∉ busy (self w)) ∧
   (call (layout := oldest_first) (stormy 2) request w).1
     = Raised (Failure 2) ∧
   busy (self (call (layout := oldest_first) (stormy 2) request w).2)
     = {["ann"]} ∪ busy (self w)).
Proof.
  intros ann w request.
  assert (Hsel : select (self w) "grill" = Returned (Some "ann", Some ann))
    by (vm_compute; reflexivity).
  split; [reflexivity|]. split; [exact Hsel|]. split.
  - exact (busy_released_when_call_returns (layout := oldest_first) calm w
             request "grill" "ann" ann eq_refl Hsel).
  - exact (busy_released_when_call_returns (layout := oldest_first) (stormy 2)
             w request "grill" "ann" ann eq_refl Hsel).
Defined.

(** C1, as stated, fails: when the requester's pull raises, the call
    raises and the selected worker stays in the busy set. *)
Lemma busy_stranded_counterexample :
  let w := day (layout := oldest_first) calm [on_duty "ann" ["grill"] 1 2] dawn in
  let after_call := call (layout := oldest_first) (stormy 0) (an_order "grill") w in
  select (self w) "grill" = Returned (Some "ann", Some (on_duty "ann" ["grill"] 1 2)) ∧
  after_call.1 = Raised (Failure 0) ∧
  ¬ ("ann" ∉ busy (self after_call.2)).
Proof.
  intros w after_call.
  split; [vm_compute; reflexivity|]. split; [vm_compute; reflexivity|].
  by_computation.
Qed.

(** C7: when an order event selects a worker and each of the four relay
    calls returns, the dispatch call returns and has made exactly these
    calls, in this order: the requester's pull, answering P; a send of P
    to the selected worker; the worker's pull, answering R; a send of R
    to the requester. *)
Theorem relay_round_trip {layout : SetOrder} env (w : world)
  (request : Request) (spe sta : string) (found : Request) (P R x y : nat) :
  let c1 := Receive (receive request) in
  let c2 := Send (send found) P in
  let c3 := Receive (receive found) in
  let c4 := Send (send request) R in
  scope request = Order (Some spe) →
  select (self w) spe = Returned (Some sta, Some found) →
  env (calls w) c1 = Returned P →
  env (calls w ++ [c1]) c2 = Returned x →
  env ((calls w ++ [c1]) ++ [c2]) c3 = Returned R →
  env (((calls w ++ [c1]) ++ [c2]) ++ [c3]) c4 = Returned y →
  (call env request w).1 = Returned () ∧
  calls (call env request w).2 = calls w ++ [c1; c2; c3; c4].
Proof.
  intros c1 c2 c3 c4 Hs Hsel H1 H2 H3 H4.
  by rewrite (call_order_all_return env w request spe sta found P R x y
                Hs Hsel H1 H2 H3 H4).
Qed.

Lemma relay_round_trip_witness :
  let ann := on_duty "ann" ["grill"] 1 2 in
  let w := day (layout := oldest_first) calm [ann] dawn in
  let request := an_order "grill" in
  (call (layout := oldest_first) calm request w).1 = Returned () ∧
  calls (call (layout := oldest_first) calm request w).2
    = [Receive 90; Send 2 190; Receive 1; Send 91 101].
Proof.
  intros ann w request.
  exact (relay_round_trip (layout := oldest_first) calm w request
           "grill" "ann" ann 190 101 0 0
           eq_refl eq_refl eq_refl eq_refl eq_refl eq_refl).
Defined.

(** C2: the code has no branch for an order that finds no idle worker.
    In a consistent manager whose registered workers are all in the busy
    set, the dispatch call raises: with an empty registry the unbound
    local [sta] at line 68; otherwise, after the requester's pull, the
    missing attribute of [None] at line 70.  No dedicated error is
    signalled in either case. *)
Theorem order_without_idle_worker {layout : SetOrder} env (w : world)
  (request : Request) (spe : string) :
  scope request = Order (Some spe) →
  consistent (self w) →
  (∀ id, registered (self w) id → id ∈ busy (self w)) →
  (call env request w).1 =
    match staff (self w) with
    | [] => Raised (UnboundLocalError "sta")
    | _ :: _ =>
        match env (calls w) (Receive (receive request)) with
        | Returned _ => Raised (AttributeError "send")
        | Raised e => Raised e
        end
    end.
Proof.
  intros Hs Hcons Hbusy.
  pose proof (select_consistent _ spe Hcons) as Hsel.
  assert (Hkeys : first_idle (self w) (dict_keys (staff (self w))) = None).
  { apply first_idle_None. intros id Hid. by apply Hbusy. }
  assert (Hcands :
    first_idle (self w) (advertisers (special (self w)) spe) = None).
  { apply first_idle_None. intros id Hid.
    by apply Hbusy, (index_within_registry _ Hcons spe). }
  rewrite Hkeys, Hcands in Hsel.
  rewrite (call_order_not_found env _ _ _ _ Hs Hsel).
  destruct (staff (self w)) as [|[k r] d] eqn:Hst.
  - simpl. destruct (advertisers (special (self w)) spe) as [|id l] eqn:Hadv.
    + done.
    + exfalso. assert (Hreg : registered (self w) id).
      { apply (index_within_registry _ Hcons spe). rewrite Hadv. by left. }
      unfold registered in Hreg. rewrite Hst in Hreg.
      by apply elem_of_nil in Hreg.
  - unfold dict_keys. rewrite fmap_cons, last_cons.
    by destruct (last (d.*1)).
Qed.

Lemma order_without_idle_worker_witness :
  let stranded :=
    day (layout := oldest_first) (stormy 0)
      [on_duty "ann" ["grill"] 1 2; an_order "grill"] dawn in
  (call (layout := oldest_first) calm (an_order "grill") dawn).1
    = Raised (UnboundLocalError "sta") ∧
  (call (layout := oldest_first) (stormy 0) (an_order "grill") stranded).1
    = Raised (AttributeError "send").
Proof.
  intros stranded. split.
  - refine (order_without_idle_worker (layout := oldest_first) calm dawn
              (an_order "grill") "grill" eq_refl dawn_consistent _).
    intros id Hid. by apply elem_of_nil in Hid.
  - refine (order_without_idle_worker (layout := oldest_first) (stormy 0)
              stranded (an_order "grill") "grill" eq_refl _ _).
    + apply day_consistent, dawn_consistent.
    + intros id Hid. apply list_elem_of_singleton in Hid as ->.
      by_computation.
Defined.

(** C6: an order event whose scope has no ["speciality"] key makes the
    dispatch call raise the lookup failure of line 54, in any state and
    before any scan, marking or call. *)
Theorem order_without_speciality_raises {layout : SetOrder} env (w : world)
  (rcv snd : nat) :
  call env {| scope := Order None; receive := rcv; send := snd |} w
    = (Raised (KeyError "speciality"), w).
Proof. reflexivity. Qed.

(** An order whose call returns leaves the manager as it found it: the
    next order meets the same registry, index and busy set. *)
Lemma returned_order_restores_manager {layout : SetOrder} env (w : world)
  (request : Request) (speciality : option string) :
  scope request = Order speciality →
  (call env request w).1 = Returned () →
  self (call env request w).2 = self w.
Proof.
  intros Hs. unfold call. rewrite Hs. unfold order, busy_remove.
  destruct speciality as [spe|]; unfold_M; [|done].
  destruct (select (self w) spe) as [[[sta|] found]|e] eqn:Hsel;
    simpl; try done.
  destruct (env (calls w) _); simpl; try done.
  destruct found as [found|]; simpl; try done.
  apply select_Some in Hsel as [Hidle _].
  destruct (env (_ ++ [_]) (Send _ _)); simpl; try done.
  destruct (env (_ ++ [_]) (Receive _)); simpl; try done.
  destruct (env (_ ++ [_]) (Send _ _)); simpl; try done.
  rewrite decide_True by set_solver. simpl. intros _.
  destruct (self w) as [st sp b]. unfold with_busy. simpl in *.
  f_equal. set_solver.
Qed.

Lemma served_app found (l1 l2 : list io_call) :
  served found (l1 ++ l2) = served found l1 + served found l2.
Proof. unfold served. by rewrite filter_app, length_app. Qed.

Lemma day_app {layout : SetOrder} env (l1 l2 : list Request) (w : world) :
  day env (l1 ++ l2) w = day env l2 (day env l1 w).
Proof. unfold day. by rewrite foldl_app. Qed.

Section distribution.
Context {layout : SetOrder}.

(** One order in that kitchen: the first worker serves it. *)
Lemma kitchen_order (log : list io_call) :
  after calm {| self := kitchen; calls := log |} (test_order (Some ""))
    = {| self := kitchen;
         calls := log ++ [Receive 0; Send 1 100; Receive 10; Send 1 110] |}.
Proof.
  unfold after.
  by rewrite (call_order_all_return calm {| self := kitchen; calls := log |}
                (test_order (Some "")) "" "jmMZkSGVBbCDgKKMMSNPS"
                {| scope := StaffOnDuty "jmMZkSGVBbCDgKKMMSNPS" (Some []);
                   receive := 10; send := 1 |} 100 110 0 0
                eq_refl eq_refl eq_refl eq_refl eq_refl eq_refl).
Qed.

Lemma kitchen_orders (M : nat) (log : list io_call) :
  day calm (replicate M (test_order (Some "")))
      {| self := kitchen; calls := log |}
    = {| self := kitchen;
         calls := log ++ mjoin (replicate M
                    [Receive 0; Send 1 100; Receive 10; Send 1 110]) |}.
Proof.
  revert log. induction M as [|M IH]; intros log; simpl.
  - by rewrite app_nil_r.
  - rewrite kitchen_order, IH. by rewrite <- app_assoc.
Qed.

Lemma served_rounds found (M : nat) (round : list io_call) :
  served found (mjoin (replicate M round)) = M * served found round.
Proof.
  induction M as [|M IH]; simpl; [done|]. rewrite served_app, IH. lia.
Qed.

(** An order without the key changes nothing, however many there are. *)
Lemma keyless_orders env (M : nat) (w : world) :
  day env (replicate M (test_order None)) w = w.
Proof. induction M as [|M IH]; simpl; [done|]. apply IH. Qed.

End distribution.

(** C8: five idle workers and M orders in a row are not shared out M/5
    each.  On the events that the test sends, with no ["speciality"] key,
    no worker is asked for anything, every order raising on the missing
    key; with the key present and naming a capability nobody advertises,
    the first registered worker serves all M orders and the other four
    none.  For M = 100 that is 100, 0, 0, 0, 0 and not 20 each. *)
Theorem orders_not_evenly_distributed {layout : SetOrder} (M : nat) :
  map (λ r, served r
        (calls (day calm (test_staff None ++ replicate M (test_order None))
                  dawn)))
      (test_staff None) = [0; 0; 0; 0; 0] ∧
  map (λ r, served r
        (calls (day calm
                  (test_staff (Some []) ++ replicate M (test_order (Some "")))
                  dawn)))
      (test_staff (Some [])) = [M; 0; 0; 0; 0].
Proof.
  split.
  - rewrite day_app, keyless_orders. vm_compute. reflexivity.
  - rewrite day_app.
    assert (Hday : day calm (test_staff (Some [])) dawn
                   = {| self := self (day calm (test_staff (Some [])) dawn);
                        calls := [] |}) by (vm_compute; reflexivity).
    rewrite Hday, kitchen_orders. simpl calls.
    unfold test_staff, STAFF_IDS. simpl map.
    rewrite !served_rounds.
    repeat match goal with
           | |- context [served ?r ?l] =>
               let v := eval vm_compute in (served r l) in
               change (served r l) with v
           end.
    by rewrite Nat.mul_1_r, !Nat.mul_0_r.
Qed.

(** C5, as stated, fails: with a set that iterates its newest member
    first, an order for a capability that two idle workers advertise goes
    to the one that registered last. *)
Lemma registration_order_counterexample :
  let ann := on_duty "ann" ["grill"] 1 2 in
  let bob := on_duty "bob" ["grill"] 3 4 in
  let w := day (layout := newest_first) calm [ann; bob] dawn in
  earliest_idle_advertiser (self w) "grill" = Some "ann" ∧
  select (self w) "grill" = Returned (Some "bob", Some bob) ∧
  calls (call (layout := newest_first) calm (an_order "grill") w).2
    = [Receive 90; Send 4 190; Receive 3; Send 91 103] ∧
  ¬ (∃ found, select (self w) "grill" = Returned (Some "ann", Some found)).
Proof.
  intros ann bob w.
  assert (Hsel : select (self w) "grill" = Returned (Some "bob", Some bob))
    by (vm_compute; reflexivity).
  split; [vm_compute; reflexivity|]. split; [exact Hsel|].
  split; [vm_compute; reflexivity|].
  intros [found Hfound]. rewrite Hsel in Hfound. discriminate.
Qed.

(** C5, as amended: in a state reached from the initial empty manager, an
    order event for a capability goes to the first member of that
    capability's set, in the iteration order of the set, that is not in
    the busy set; when the set has no such member or the capability is
    not a key of the index, it goes to the first key of the registry, in
    insertion order, that is not in the busy set.  Going to a worker
    means that the loops end with its id and its registry entry, and that
    the payload pulled from the requester is sent on that entry's
    channel. *)
Theorem order_goes_to_first_idle {layout : SetOrder} env
  (events : list Request) (request : Request) (spe : string) :
  scope request = Order (Some spe) →
  let w := day env events dawn in
  let m := self w in
  let goes_to (sta : string) :=
    ∃ found, dict_get sta (staff m) = Some found ∧
             select m spe = Returned (Some sta, Some found) ∧
             ∀ P, env (calls w) (Receive (receive request)) = Returned P →
                  Send (send found) P ∈ calls (call env request w).2 in
  match first_idle m (advertisers (special m) spe) with
  | Some sta => goes_to sta
  | None =>
      match first_idle m (dict_keys (staff m)) with
      | Some sta => goes_to sta
      | None => True
      end
  end.
Proof.
  intros Hs w m goes_to.
  assert (Hcons : consistent m) by apply day_consistent, dawn_consistent.
  assert (Hgo : ∀ sta, registered m sta →
                       select m spe = Returned (Some sta, dict_get sta (staff m)) →
                       goes_to sta).
  { intros sta [found Hget]%dict_get_keys Hsel. exists found.
    rewrite Hget in Hsel. split; [done|]. split; [done|].
    intros P HP. rewrite (call_order_selected env _ _ _ _ _ Hs Hsel).
    unfold busy_remove. unfold_M. rewrite HP. simpl.
    destruct (env (_ ++ [_]) (Send _ _)); simpl; [|set_solver].
    destruct (env (_ ++ [_]) (Receive _)); simpl; [|set_solver].
    destruct (env (_ ++ [_]) (Send _ _)); simpl; [|set_solver].
    case_decide; simpl; set_solver. }
  pose proof (select_consistent m spe Hcons) as Hsel.
  destruct (first_idle m (advertisers (special m) spe)) as [sta|] eqn:Hc.
  - apply Hgo; [|done]. apply first_idle_Some in Hc as [Hin _].
    by apply (index_within_registry _ Hcons spe).
  - destruct (first_idle m (dict_keys (staff m))) as [sta|] eqn:Hk; [|done].
    apply Hgo; [|done]. by apply first_idle_Some in Hk as [Hin _].
Qed.

Lemma order_goes_to_first_idle_witness :
  let ann := on_duty "ann" ["grill"] 1 2 in
  let bob := on_duty "bob" ["fry"] 3 4 in
  let w := day (layout := oldest_first) calm [ann; bob] dawn in
  (∃ found, dict_get "bob" (staff (self w)) = Some found ∧
            select (self w) "fry" = Returned (Some "bob", Some found) ∧
            ∀ P, calm (calls w) (Receive (receive (an_order "fry"))) = Returned P →
                 Send (send found) P
                 ∈ calls (call (layout := oldest_first) calm (an_order "fry") w).2) ∧
  (∃ found, dict_get "ann" (staff (self w)) = Some found ∧
            select (self w) "wok" = Returned (Some "ann", Some found) ∧
            ∀ P, calm (calls w) (Receive (receive (an_order "wok"))) = Returned P →
                 Send (send found) P
                 ∈ calls (call (layout := oldest_first) calm (an_order "wok") w).2).
Proof.
  intros ann bob w. split.
  - exact (order_goes_to_first_idle (layout := oldest_first) calm [ann; bob]
             (an_order "fry") "fry" eq_refl).
  - exact (order_goes_to_first_idle (layout := oldest_first) calm [ann; bob]
             (an_order "wok") "wok" eq_refl).
Defined.

(** ** Further properties of the staff events *)

Lemma dict_set_set {V} (k : string) (v : V) (d : list (string * V)) :
  dict_set k v (dict_set k v d) = dict_set k v d.
Proof.
  induction d as [|[k0 v0] d IH]; simpl.
  - by rewrite decide_True.
  - destruct (decide (k = k0)) as [->|Hne]; simpl.
    + by rewrite decide_True.
    + rewrite decide_False by done. by rewrite IH.
Qed.

Lemma dict_del_set_fresh {V} (k : string) (v : V) (d : list (string * V)) :
  k ∉ dict_keys d → dict_del k (dict_set k v d) = d.
Proof.
  unfold dict_keys. induction d as [|[k0 v0] d IH]; simpl.
  - intros _. by rewrite decide_True.
  - intros [Hne Hk]%not_elem_of_cons.
    rewrite decide_False by done. simpl.
    rewrite decide_False by done. by rewrite IH.
Qed.

Lemma dict_keys_set_order {V} (k : string) (v : V) (d : list (string * V)) :
  dict_keys (dict_set k v d) =
    if decide (k ∈ dict_keys d) then dict_keys d else dict_keys d ++ [k].
Proof.
  unfold dict_keys. induction d as [|[k0 v0] d IH]; [done|].
  cbn [dict_set]. destruct (decide (k = k0)) as [->|Hne].
  - rewrite decide_True by (rewrite fmap_cons; apply list_elem_of_here).
    done.
  - rewrite !fmap_cons, IH. cbn [fst].
    destruct (decide (k ∈ d.*1)) as [Hin|Hnin].
    + rewrite decide_True by (by right). done.
    + rewrite decide_False; [done|].
      intros [?|?]%elem_of_cons; done.
Qed.

Section staff_events.
Context {layout : SetOrder}.
Variable env : environment.

Lemma advertise_advertised id sp c :
  advertised id (advertise id sp c) c.
Proof.
  exists (set_add id (default empty_set (sp !! c))). unfold advertise.
  rewrite lookup_insert_eq. split; [done|].
  apply elem_of_set_add. by left.
Qed.

Lemma advertise_keeps_advertised id sp c c' :
  advertised id sp c → advertised id (advertise id sp c') c.
Proof.
  intros (l & Hl & Hid). destruct (decide (c' = c)) as [->|Hne].
  - apply advertise_advertised.
  - exists l. unfold advertise. by rewrite lookup_insert_ne.
Qed.

Lemma advertise_noop id sp c :
  advertised id sp c → advertise id sp c = sp.
Proof.
  intros (l & Hl & Hid). unfold advertise. rewrite Hl. simpl.
  rewrite set_add_member by done. by apply insert_id.
Qed.

Lemma fold_advertise_keeps id caps sp c :
  advertised id sp c → advertised id (foldl (advertise id) sp caps) c.
Proof.
  revert sp. induction caps as [|c' caps IH]; intros sp Hc; simpl; [done|].
  by apply IH, advertise_keeps_advertised.
Qed.

Lemma fold_advertise_advertised id caps sp c :
  c ∈ caps → advertised id (foldl (advertise id) sp caps) c.
Proof.
  revert sp. induction caps as [|c' caps IH]; intros sp Hc; simpl.
  - by apply elem_of_nil in Hc.
  - apply elem_of_cons in Hc as [->|Hc]; [|by apply IH].
    apply fold_advertise_keeps, advertise_advertised.
Qed.

Lemma fold_advertise_noop id caps sp :
  (∀ c, c ∈ caps → advertised id sp c) → foldl (advertise id) sp caps = sp.
Proof.
  induction caps as [|c caps IH]; intros Hall; simpl; [done|].
  rewrite advertise_noop by (apply Hall; by left).
  apply IH. intros c' Hc'. apply Hall. by right.
Qed.

(** A staff event leaves the busy set and the log alone. *)
Lemma after_staff_event w request :
  staff_event request →
  calls (after env w request) = calls w ∧
  busy (self (after env w request)) = busy (self w).
Proof.
  unfold staff_event. destruct (scope request) as [id sp|id|sp|ty] eqn:Hs;
    try done; intros _.
  - by rewrite (after_onduty _ _ _ _ _ Hs).
  - by rewrite (after_offduty _ _ _ _ Hs).
Qed.

(** No event takes out of the busy set an id that was in it. *)
Lemma after_keeps_busy w request id :
  id ∈ busy (self w) → id ∈ busy (self (after env w request)).
Proof.
  intros Hid. destruct (scope request) as [id' sp|id'|sp|ty] eqn:Hs.
  - by rewrite (after_onduty _ _ _ _ _ Hs).
  - by rewrite (after_offduty _ _ _ _ Hs).
  - unfold after, call. rewrite Hs. unfold order, busy_remove.
    destruct sp as [spe|]; unfold_M; [|done].
    destruct (select (self w) spe) as [[[sta|] found]|e] eqn:Hsel;
      simpl; try done.
    destruct (env (calls w) _); simpl; [|set_solver].
    destruct found as [found|]; simpl; [|set_solver].
    apply select_Some in Hsel as [Hidle _].
    destruct (env (_ ++ [_]) (Send _ _)); simpl; [|set_solver].
    destruct (env (_ ++ [_]) (Receive _)); simpl; [|set_solver].
    destruct (env (_ ++ [_]) (Send _ _)); simpl; [|set_solver].
    case_decide; simpl; set_solver.
  - by rewrite (after_other _ _ _ _ Hs).
Qed.

Lemma day_keeps_busy requests w id :
  id ∈ busy (self w) → id ∈ busy (self (day env requests w)).
Proof.
  revert w. induction requests as [|r rs IH]; intros w Hid; simpl; [done|].
  by apply IH, after_keeps_busy.
Qed.

(** A [staff.offduty] event for an id that a consistent manager does not
    hold. *)
Lemma offduty_unregistered w request id :
  scope request = StaffOffDuty id →
  consistent (self w) → ¬ registered (self w) id →
  call env request w = (Raised (KeyError id), w).
Proof.
  intros Hs [Hin _] Hid. unfold call. rewrite Hs. unfold offduty. unfold_M.
  rewrite (proj2 (dict_get_None _ _) Hid).
  unfold with_special. rewrite discard_unadvertised.
  - by destruct w as [[] ?].
  - intros spe Hspe. by apply Hid, (Hin spe).
Qed.

End staff_events.

(** X1: a day of staff.onduty and staff.offduty events calls no channel
    and leaves the busy set as it was, whether the events return or
    raise. *)
Theorem staff_events_make_no_call {layout : SetOrder} env
  (events : list Request) (w : world) :
  Forall staff_event events →
  calls (day env events w) = calls w ∧
  busy (self (day env events w)) = busy (self w).
Proof.
  intros Hev. revert w. induction Hev as [|r rs Hr _ IH]; intros w; simpl.
  - done.
  - destruct (IH (after env w r)) as [-> ->]. by apply after_staff_event.
Qed.

Lemma staff_events_make_no_call_witness :
  let events := [on_duty "ann" ["grill"] 1 2; off_duty "bob"; off_duty "ann"] in
  let w := day (layout := oldest_first) (stormy 0)
             [on_duty "ann" [] 1 2; an_order "grill"] dawn in
  calls (day (layout := oldest_first) calm events w) = calls w ∧
  busy (self (day (layout := oldest_first) calm events w)) = busy (self w).
Proof.
  intros events w.
  apply (staff_events_make_no_call (layout := oldest_first) calm events w).
  repeat constructor.
Defined.

(** X2: a staff.onduty event whose scope has no ["speciality"] key raises
    the lookup failure of line 40 after line 39 has stored the request:
    the worker is in the registry, in place or last, and the index, the
    busy set and the log are as before. *)
Theorem onduty_without_speciality_registers {layout : SetOrder} env
  (w : world) (request : Request) (id : string) :
  scope request = StaffOnDuty id None →
  let r := call env request w in
  r.1 = Raised (KeyError "speciality") ∧
  dict_get id (staff (self r.2)) = Some request ∧
  (∀ k, k ≠ id → dict_get k (staff (self r.2)) = dict_get k (staff (self w))) ∧
  special (self r.2) = special (self w) ∧
  busy (self r.2) = busy (self w) ∧
  calls r.2 = calls w.
Proof.
  intros Hs r. unfold r, call. rewrite Hs. unfold onduty. unfold_M.
  split; [done|]. split; [|split; [|done]].
  - rewrite dict_get_set. by rewrite decide_True.
  - intros k Hk. rewrite dict_get_set. by rewrite decide_False.
Qed.

Lemma onduty_without_speciality_registers_witness :
  let request := {| scope := StaffOnDuty "ann" None; receive := 1; send := 2 |} in
  let r := call (layout := oldest_first) calm request dawn in
  r.1 = Raised (KeyError "speciality") ∧
  dict_get "ann" (staff (self r.2)) = Some request.
Proof.
  intros request r.
  destruct (onduty_without_speciality_registers (layout := oldest_first)
              calm dawn request "ann" eq_refl) as (Hr & Hget & _).
  split; [exact Hr | exact Hget].
Defined.

(** X3: in a consistent manager, a staff.onduty event for an id that is
    not registered followed by a staff.offduty event for that id undoes
    itself: the second call returns, the registry is the list it was, and
    every capability set has the members it had. *)
Theorem onduty_then_offduty_restores {layout : SetOrder} env (w : world)
  (request bye : Request) (id : string) (speciality : option (list string)) :
  scope request = StaffOnDuty id speciality →
  scope bye = StaffOffDuty id →
  consistent (self w) →
  ¬ registered (self w) id →
  let w1 := after env w request in
  let w2 := after env w1 bye in
  (call env bye w1).1 = Returned () ∧
  staff (self w2) = staff (self w) ∧
  ∀ spe y, y ∈ advertisers (special (self w2)) spe ↔
           y ∈ advertisers (special (self w)) spe.
Proof.
  intros Hon Hoff [Hin Hnd] Hid w1 w2. split; [|split].
  - unfold call. rewrite Hoff. unfold offduty. unfold_M.
    unfold w1. rewrite (after_onduty _ _ _ _ _ Hon). simpl.
    rewrite dict_get_set. by rewrite decide_True.
  - unfold w2, w1.
    rewrite (after_offduty _ _ _ _ Hoff), (after_onduty _ _ _ _ _ Hon).
    simpl. by apply dict_del_set_fresh.
  - intros spe y. unfold w2, w1.
    rewrite (after_offduty _ _ _ _ Hoff), (after_onduty _ _ _ _ _ Hon).
    simpl. rewrite elem_of_advertisers_discard.
    assert (Hfresh : y ∈ advertisers (special (self w)) spe → y ≠ id).
    { intros Hy ->. by apply Hid, (Hin spe). }
    destruct speciality as [caps|].
    + rewrite elem_of_advertisers_fold. naive_solver.
    + naive_solver.
Qed.

Lemma onduty_then_offduty_restores_witness :
  let w := day (layout := oldest_first) calm [on_duty "ann" ["grill"] 1 2] dawn in
  let w2 := after (layout := oldest_first) calm
              (after (layout := oldest_first) calm w
                 (on_duty "bob" ["grill"; "fry"] 3 4))
              (off_duty "bob") in
  staff (self w2) = staff (self w) ∧
  ("ann" ∈ advertisers (special (self w2)) "grill" ↔
   "ann" ∈ advertisers (special (self w)) "grill").
Proof.
  intros w w2.
  assert (Hcons : consistent (self w)) by apply day_consistent, dawn_consistent.
  assert (Hno : ¬ registered (self w) "bob") by by_computation.
  destruct (onduty_then_offduty_restores (layout := oldest_first) calm w
              (on_duty "bob" ["grill"; "fry"] 3 4) (off_duty "bob") "bob"
              (Some ["grill"; "fry"]) eq_refl eq_refl Hcons Hno)
    as (_ & Hstaff & Hsets).
  split; [exact Hstaff | exact (Hsets "grill" "ann")].
Defined.

(** X4: a staff.onduty event handled twice in a row does what it does
    handled once: the second handling changes nothing. *)
Theorem onduty_twice_is_onduty_once {layout : SetOrder} env (w : world)
  (request : Request) (id : string) (speciality : option (list string)) :
  scope request = StaffOnDuty id speciality →
  after env (after env w request) request = after env w request.
Proof.
  intros Hs. rewrite (after_onduty _ (after env w request) _ _ _ Hs).
  rewrite (after_onduty _ w _ _ _ Hs). simpl.
  rewrite dict_set_set. destruct speciality as [caps|]; [|done].
  rewrite fold_advertise_noop; [done|].
  intros c Hc. by apply fold_advertise_advertised.
Qed.

Lemma onduty_twice_is_onduty_once_witness :
  let ann := on_duty "ann" ["grill"; "fry"; "grill"] 1 2 in
  after (layout := newest_first) calm (after (layout := newest_first) calm dawn ann) ann
    = after (layout := newest_first) calm dawn ann.
Proof.
  intros ann.
  exact (onduty_twice_is_onduty_once (layout := newest_first) calm dawn ann
           "ann" (Some ["grill"; "fry"; "grill"]) eq_refl).
Defined.

(** X5: in a consistent manager, a staff.offduty event handled a second
    time raises the lookup failure for its id and changes nothing,
    whether the first handling returned or raised. *)
Theorem offduty_twice_raises {layout : SetOrder} env (w : world)
  (bye : Request) (id : string) :
  scope bye = StaffOffDuty id →
  consistent (self w) →
  call env bye (after env w bye) = (Raised (KeyError id), after env w bye).
Proof.
  intros Hs Hcons. apply offduty_unregistered; [done| |].
  - by apply after_consistent.
  - rewrite (after_offduty _ _ _ _ Hs). unfold registered. simpl.
    rewrite dict_keys_del by apply Hcons. tauto.
Qed.

Lemma offduty_twice_raises_witness :
  let w := day (layout := oldest_first) calm [on_duty "ann" ["grill"] 1 2] dawn in
  let w1 := after (layout := oldest_first) calm w (off_duty "ann") in
  call (layout := oldest_first) calm (off_duty "ann") w1
    = (Raised (KeyError "ann"), w1).
Proof.
  intros w w1.
  apply (offduty_twice_raises (layout := oldest_first) calm w (off_duty "ann")
           "ann" eq_refl).
  apply day_consistent, dawn_consistent.
Defined.

(** X6: a staff.onduty event for an id that is already registered leaves
    the order of the registry's keys as it was, so the worker keeps its
    place in the fallback scan; for a new id it puts the id last. *)
Theorem onduty_registry_order {layout : SetOrder} env (w : world)
  (request : Request) (id : string) (speciality : option (list string)) :
  scope request = StaffOnDuty id speciality →
  dict_keys (staff (self (after env w request))) =
    if decide (registered (self w) id) then dict_keys (staff (self w))
    else dict_keys (staff (self w)) ++ [id].
Proof.
  intros Hs. rewrite (after_onduty _ _ _ _ _ Hs). simpl.
  rewrite dict_keys_set_order. unfold registered.
  by destruct (decide (id ∈ dict_keys (staff (self w)))).
Qed.

Lemma onduty_registry_order_witness :
  let w := day (layout := oldest_first) calm
             [on_duty "ann" ["grill"] 1 2; on_duty "bob" [] 3 4] dawn in
  dict_keys (staff (self (after (layout := oldest_first) calm w
                            (on_duty "ann" ["fry"] 5 6)))) = ["ann"; "bob"] ∧
  dict_keys (staff (self (after (layout := oldest_first) calm w
                            (on_duty "cho" ["fry"] 5 6)))) = ["ann"; "bob"; "cho"].
Proof.
  intros w. split.
  - exact (onduty_registry_order (layout := oldest_first) calm w
             (on_duty "ann" ["fry"] 5 6) "ann" (Some ["fry"]) eq_refl).
  - exact (onduty_registry_order (layout := oldest_first) calm w
             (on_duty "cho" ["fry"] 5 6) "cho" (Some ["fry"]) eq_refl).
Defined.

(** X7: an id that is in the busy set when a day starts is in the busy
    set after every event of the day, whatever the events are and
    however they end, and no order of the day selects it: a worker left
    busy by a failed relay is never released, not even by going off duty
    and on duty again. *)
Theorem busy_is_never_released {layout : SetOrder} env (w : world)
  (events : list Request) (id : string) :
  id ∈ busy (self w) →
  id ∈ busy (self (day env events w)) ∧
  ∀ spe found,
    select (self (day env events w)) spe ≠ Returned (Some id, Some found).
Proof.
  intros Hid. pose proof (day_keeps_busy env events w id Hid) as Hbusy.
  split; [done|]. intros spe found Hsel.
  by apply select_Some in Hsel as [Hidle _].
Qed.

Lemma busy_is_never_released_witness :
  let w := day (layout := oldest_first) (stormy 0)
             [on_duty "ann" ["grill"] 1 2; an_order "grill"] dawn in
  let events := [off_duty "ann"; on_duty "ann" ["grill"] 1 2; an_order "grill"] in
  "ann" ∈ busy (self w) ∧
  "ann" ∈ busy (self (day (layout := oldest_first) calm events w)).
Proof.
  intros w events.
  assert (Hin : "ann" ∈ busy (self w)) by by_computation.
  split; [exact Hin|].
  exact (proj1 (busy_is_never_released (layout := oldest_first) calm w events
                  "ann" Hin)).
Defined.

(** ** Further properties of the order event *)

(** In a consistent manager, loops that end with [sta] bound and [found]
    still [None] have stopped on a busy id. *)
Lemma select_not_found m spe sta :
  consistent m → select m spe = Returned (Some sta, None) → sta ∈ busy m.
Proof.
  intros Hcons Hsel. rewrite (select_consistent m spe Hcons) in Hsel.
  destruct (first_idle m (advertisers (special m) spe)) as [s|] eqn:Hc.
  { apply first_idle_Some in Hc as [Hin _].
    apply (index_within_registry _ Hcons spe), dict_get_keys in Hin as [r Hr].
    rewrite Hr in Hsel. done. }
  destruct (first_idle m (dict_keys (staff m))) as [s|] eqn:Hk.
  { apply first_idle_Some in Hk as [Hin _].
    apply dict_get_keys in Hin as [r Hr]. rewrite Hr in Hsel. done. }
  injection Hsel as Hsta.
  destruct (last (dict_keys (staff m))) as [k|] eqn:Hlk; simpl in Hsta.
  - injection Hsta as ->.
    apply (proj1 (first_idle_None _ _) Hk). by eapply last_Some_elem_of.
  - destruct (last (advertisers (special m) spe)) as [c|] eqn:Hlc;
      simpl in Hsta; [|done].
    injection Hsta as ->.
    apply (proj1 (first_idle_None _ _) Hc). by eapply last_Some_elem_of.
Qed.

(** In a consistent manager whose registered workers are all busy, the
    loops end with [found] at [None] and [sta] at the last key of the
    registry, unbound when the registry is empty. *)
Lemma select_all_busy m spe :
  consistent m →
  (∀ id, registered m id → id ∈ busy m) →
  select m spe = Returned (last (dict_keys (staff m)), None).
Proof.
  intros Hcons Hbusy. rewrite (select_consistent m spe Hcons).
  assert (Hkeys : first_idle m (dict_keys (staff m)) = None).
  { apply first_idle_None. intros id Hid. by apply Hbusy. }
  assert (Hcands : first_idle m (advertisers (special m) spe) = None).
  { apply first_idle_None. intros id Hid.
    by apply Hbusy, (index_within_registry _ Hcons spe). }
  rewrite Hkeys, Hcands.
  destruct (last (dict_keys (staff m))) as [k|] eqn:Hlk; simpl; [done|].
  destruct (last (advertisers (special m) spe)) as [c|] eqn:Hlc; simpl;
    [|done].
  exfalso. apply last_Some_elem_of in Hlc.
  apply (index_within_registry _ Hcons spe) in Hlc. unfold registered in Hlc.
  apply last_None in Hlk. rewrite Hlk in Hlc. by apply elem_of_nil in Hlc.
Qed.

(** With no failing call, an event handled by a consistent manager with
    an empty busy set leaves the busy set empty. *)
Lemma after_nobody_busy {layout : SetOrder} env w request :
  never_fails env → consistent (self w) → busy (self w) = ∅ →
  busy (self (after env w request)) = ∅.
Proof.
  intros Hnf Hcons Hb. destruct (scope request) as [id sp|id|sp|ty] eqn:Hs.
  - by rewrite (after_onduty _ _ _ _ _ Hs).
  - by rewrite (after_offduty _ _ _ _ Hs).
  - unfold after, call. rewrite Hs. unfold order, busy_remove.
    destruct sp as [spe|]; unfold_M; [|done].
    destruct (select (self w) spe) as [[[sta|] found]|e] eqn:Hsel;
      simpl; try done.
    destruct found as [found|].
    + destruct (Hnf (calls w) (Receive (receive request))) as [P ->]. simpl.
      destruct (Hnf (calls w ++ [Receive (receive request)])
                  (Send (send found) P)) as [x ->]. simpl.
      destruct (Hnf ((calls w ++ [Receive (receive request)])
                       ++ [Send (send found) P])
                  (Receive (receive found))) as [R ->]. simpl.
      destruct (Hnf (((calls w ++ [Receive (receive request)])
                        ++ [Send (send found) P])
                       ++ [Receive (receive found)])
                  (Send (send request) R)) as [y ->]. simpl.
      rewrite decide_True by set_solver. simpl. rewrite Hb. set_solver.
    + apply (select_not_found _ _ _ Hcons) in Hsel. rewrite Hb in Hsel.
      set_solver.
  - by rewrite (after_other _ _ _ _ Hs).
Qed.

(** X8: an order event, however it ends, leaves the registry and the
    index as they were, and the calls it makes are a beginning of the
    relay's four calls: none, or the requester's pull alone, or at least
    two of: the requester's pull, a send of the payload that pull
    answered to the worker the loops selected, that worker's pull, and
    a send to the requester of the result that the worker's pull
    answered. *)
Theorem order_changes_only_busy_and_log {layout : SetOrder} env (w : world)
  (request : Request) (speciality : option string) :
  scope request = Order speciality →
  let w' := (call env request w).2 in
  let pull := Receive (receive request) in
  staff (self w') = staff (self w) ∧
  special (self w') = special (self w) ∧
  ∃ l,
    calls w' = calls w ++ l ∧
    (l = [] ∨ l = [pull] ∨
     ∃ spe sta found P R,
       speciality = Some spe ∧
       select (self w) spe = Returned (Some sta, Some found) ∧
       env (calls w) pull = Returned P ∧
       l `prefix_of` relay_calls request found P R ∧
       (2 ≤ length l)%nat ∧
       (length l = 4 →
        env ((calls w ++ [pull]) ++ [Send (send found) P])
            (Receive (receive found)) = Returned R)).
Proof.
  intros Hs w' pull. destruct (after_order env w request _ Hs) as [Hst Hsp].
  split; [done|]. split; [done|]. clear Hst Hsp.
  unfold w', pull, call. rewrite Hs. unfold order, busy_remove, relay_calls.
  assert (Hnil : ∀ (T : list io_call → Prop),
            ∃ l, calls w = calls w ++ l ∧ (l = [] ∨ T l)).
  { intros T. exists []. rewrite app_nil_r. auto. }
  destruct speciality as [spe|]; unfold_M; [|apply Hnil].
  destruct (select (self w) spe) as [[[sta|] found]|e] eqn:Hsel; simpl;
    try apply Hnil.
  destruct (env (calls w) _) as [P|e1] eqn:H1; simpl.
  2:{ exists [Receive (receive request)]. auto. }
  destruct found as [found|]; simpl.
  2:{ exists [Receive (receive request)]. auto. }
  destruct (env (_ ++ [_]) (Send _ _)) as [x|e2]; simpl.
  2:{ exists [Receive (receive request); Send (send found) P].
      rewrite <- app_assoc. split; [done|]. right. right.
      exists spe, sta, found, P, 0. repeat (split; [done|]).
      split; [by eexists|]. simpl. split; [lia|]. intros [=]. }
  destruct (env (_ ++ [_]) (Receive _)) as [R|e3] eqn:H3; simpl.
  2:{ exists [Receive (receive request); Send (send found) P;
              Receive (receive found)].
      rewrite <- !app_assoc. split; [done|]. right. right.
      exists spe, sta, found, P, 0. repeat (split; [done|]).
      split; [by eexists|]. simpl. split; [lia|]. intros [=]. }
  exists [Receive (receive request); Send (send found) P;
          Receive (receive found); Send (send request) R].
  split.
  - destruct (env (_ ++ [_]) (Send (send request) _)) as [y|e4]; simpl;
      [case_decide; simpl|]; rewrite <- !app_assoc; done.
  - right. right. exists spe, sta, found, P, R. repeat (split; [done|]).
    simpl. split; [lia|done].
Qed.

Lemma order_changes_only_busy_and_log_witness :
  let ann := on_duty "ann" ["grill"] 1 2 in
  let w := day (layout := oldest_first) calm [ann] dawn in
  let w' := (call (layout := oldest_first) (stormy 2) (an_order "grill") w).2 in
  staff (self w') = staff (self w) ∧
  special (self w') = special (self w) ∧
  ∃ l,
    calls w' = calls w ++ l ∧
    (l = [] ∨ l = [Receive 90] ∨
     ∃ spe sta found P R,
       Some "grill" = Some spe ∧
       select (self w) spe = Returned (Some sta, Some found) ∧
       stormy 2 (calls w) (Receive 90) = Returned P ∧
       l `prefix_of` relay_calls (an_order "grill") found P R ∧
       (2 ≤ length l)%nat ∧
       (length l = 4 →
        stormy 2 ((calls w ++ [Receive 90]) ++ [Send (send found) P])
          (Receive (receive found)) = Returned R)).
Proof.
  intros ann w w'.
  exact (order_changes_only_busy_and_log (layout := oldest_first) (stormy 2) w
           (an_order "grill") (Some "grill") eq_refl).
Defined.

(** X9: a dispatch call for an order returns only after a full relay: the
    scope names a capability, the loops selected a worker that was not
    busy, the four calls of the relay were made with the payload and the
    result that the pulls answered, and the manager is what it was. *)
Theorem returned_order_was_relayed {layout : SetOrder} env (w : world)
  (request : Request) (speciality : option string) :
  scope request = Order speciality →
  (call env request w).1 = Returned () →
  ∃ spe sta found P R,
    speciality = Some spe ∧
    select (self w) spe = Returned (Some sta, Some found) ∧
    env (calls w) (Receive (receive request)) = Returned P ∧
    env ((calls w ++ [Receive (receive request)]) ++ [Send (send found) P])
        (Receive (receive found)) = Returned R ∧
    (call env request w).2 =
      {| self := self w;
         calls := calls w ++ relay_calls request found P R |}.
Proof.
  intros Hs. unfold call. rewrite Hs. unfold order, busy_remove, relay_calls.
  destruct speciality as [spe|]; unfold_M; [|done].
  destruct (select (self w) spe) as [[[sta|] found]|e] eqn:Hsel;
    simpl; try done.
  destruct (env (calls w) _) as [P|e1] eqn:H1; simpl; [|done].
  destruct found as [found|]; simpl; [|done].
  destruct (env (_ ++ [_]) (Send _ _)) as [x|e2]; simpl; [|done].
  destruct (env (_ ++ [_]) (Receive _)) as [R|e3] eqn:H3; simpl; [|done].
  destruct (env (_ ++ [_]) (Send _ _)) as [y|e4]; simpl; [|done].
  destruct (select_Some _ _ _ _ Hsel) as [Hidle _].
  rewrite decide_True by set_solver. simpl. intros _.
  exists spe, sta, found, P, R. repeat (split; [done|]).
  rewrite <- !app_assoc. simpl. f_equal.
  destruct (self w) as [st sp b]. unfold with_busy. simpl in *.
  f_equal. set_solver.
Qed.

Lemma returned_order_was_relayed_witness :
  let w := day (layout := oldest_first) calm [on_duty "ann" ["grill"] 1 2] dawn in
  ∃ spe sta found P R,
    Some "wok" = Some spe ∧
    select (self w) spe = Returned (Some sta, Some found) ∧
    calm (calls w) (Receive (receive (an_order "wok"))) = Returned P ∧
    calm ((calls w ++ [Receive (receive (an_order "wok"))])
            ++ [Send (send found) P])
         (Receive (receive found)) = Returned R ∧
    (call (layout := oldest_first) calm (an_order "wok") w).2 =
      {| self := self w;
         calls := calls w ++ relay_calls (an_order "wok") found P R |}.
Proof.
  intros w.
  apply (returned_order_was_relayed (layout := oldest_first) calm w
           (an_order "wok") (Some "wok") eq_refl).
  vm_compute. reflexivity.
Defined.

(** X10: when no channel call ever raises, the busy set is empty after
    every day that starts from a fresh manager, whatever the events: an
    order either completes and releases its worker or raises before
    marking anyone. *)
Theorem nobody_busy_when_nothing_fails {layout : SetOrder} env
  (events : list Request) :
  never_fails env →
  busy (self (day env events dawn)) = ∅.
Proof.
  intros Hnf. induction events as [|r events IH] using rev_ind; [done|].
  rewrite day_snoc. apply after_nobody_busy; [done| |done].
  apply day_consistent, dawn_consistent.
Qed.

Lemma nobody_busy_when_nothing_fails_witness :
  busy (self (day (layout := oldest_first) calm
                [an_order "grill"; on_duty "ann" ["grill"] 1 2;
                 an_order "grill"; test_order None; an_order "wok";
                 off_duty "ann"; an_order "grill"] dawn)) = ∅.
Proof.
  apply (nobody_busy_when_nothing_fails (layout := oldest_first) calm).
  intros log [c|c obj]; eexists; reflexivity.
Defined.

(** X11: in a consistent manager whose registered workers are all busy,
    an order for a capability ends as follows.  With an empty registry
    the call raises on the unbound [sta] and the world is untouched.
    Otherwise the requester's payload is pulled, this one call is logged,
    the manager is unchanged, and the call raises what the pull raised
    or, when the pull returned, the attribute failure of line 70: the
    payload is dropped and the requester is sent nothing. *)
Theorem order_without_idle_worker_drops_payload {layout : SetOrder} env
  (w : world) (request : Request) (spe : string) :
  scope request = Order (Some spe) →
  consistent (self w) →
  (∀ id, registered (self w) id → id ∈ busy (self w)) →
  call env request w =
    match staff (self w) with
    | [] => (Raised (UnboundLocalError "sta"), w)
    | _ :: _ =>
        (match env (calls w) (Receive (receive request)) with
         | Returned _ => Raised (AttributeError "send")
         | Raised e => Raised e
         end,
         {| self := self w;
            calls := calls w ++ [Receive (receive request)] |})
    end.
Proof.
  intros Hs Hcons Hbusy.
  pose proof (select_all_busy _ spe Hcons Hbusy) as Hsel.
  unfold call. rewrite Hs. unfold order. unfold_M. rewrite Hsel. simpl.
  destruct (last (dict_keys (staff (self w)))) as [sta|] eqn:Hl; simpl.
  - assert (Hsta : sta ∈ busy (self w)).
    { apply Hbusy. by apply last_Some_elem_of. }
    assert (Hself : with_busy (λ b, {[sta]} ∪ b) (self w) = self w).
    { destruct (self w) as [st sp b]. unfold with_busy. simpl in *.
      f_equal. set_solver. }
    rewrite Hself. destruct (staff (self w)); [done|].
    by destruct (env (calls w) _).
  - apply last_None in Hl. by destruct (staff (self w)).
Qed.

Lemma order_without_idle_worker_drops_payload_witness :
  let stranded :=
    day (layout := oldest_first) (stormy 0)
      [on_duty "ann" ["grill"] 1 2; an_order "grill"] dawn in
  call (layout := oldest_first) calm (an_order "grill") dawn
    = (Raised (UnboundLocalError "sta"), dawn) ∧
  call (layout := oldest_first) calm (an_order "wok") stranded
    = (Raised (AttributeError "send"),
       {| self := self stranded; calls := calls stranded ++ [Receive 90] |}).
Proof.
  intros stranded. split.
  - refine (order_without_idle_worker_drops_payload (layout := oldest_first)
              calm dawn (an_order "grill") "grill" eq_refl dawn_consistent _).
    intros id Hid. by apply elem_of_nil in Hid.
  - refine (order_without_idle_worker_drops_payload (layout := oldest_first)
              calm stranded (an_order "wok") "wok" eq_refl _ _).
    + apply day_consistent, dawn_consistent.
    + intros id Hid. apply list_elem_of_singleton in Hid as ->.
      by_computation.
Defined.

(** In a consistent manager the two loops never raise: the lookups
    [self.staff[sta]] of lines 59 and 65 always find their key. *)
Lemma select_returns m spe :
  consistent m → ∃ locals, select m spe = Returned locals.
Proof.
  intros Hcons. rewrite (select_consistent m spe Hcons).
  destruct (first_idle m (advertisers (special m) spe)); [by eexists|].
  destruct (first_idle m (dict_keys (staff m))); by eexists.
Qed.

(** X12: when a dispatch call for an order raises in a consistent
    manager, the error is the missing ["speciality"] key, the unbound
    [sta], the attribute failure on [None], or an error that one of the
    channel calls raised.  The registry lookups of the loops and the
    removal from the busy set at line 75 never fail. *)
Theorem order_errors {layout : SetOrder} env (w : world)
  (request : Request) (speciality : option string) (e : exn) :
  scope request = Order speciality →
  consistent (self w) →
  (call env request w).1 = Raised e →
  e = KeyError "speciality" ∨ e = UnboundLocalError "sta" ∨
  e = AttributeError "send" ∨ ∃ log c, env log c = Raised e.
Proof.
  intros Hs Hcons. unfold call. rewrite Hs. unfold order, busy_remove.
  destruct speciality as [spe|]; unfold_M; [|intros [= <-]; by left].
  destruct (select_returns (self w) spe Hcons) as [[sta found] ->]. simpl.
  destruct sta as [sta|]; simpl; [|intros [= <-]; right; by left].
  destruct (env (calls w) _) as [P|e1] eqn:H1; simpl.
  2:{ intros [= <-]. do 3 right. eauto. }
  destruct found as [found|]; simpl;
    [|intros [= <-]; right; right; by left].
  destruct (env (_ ++ [_]) (Send _ _)) as [x|e2] eqn:H2; simpl.
  2:{ intros [= <-]. do 3 right. eauto. }
  destruct (env (_ ++ [_]) (Receive _)) as [R|e3] eqn:H3; simpl.
  2:{ intros [= <-]. do 3 right. eauto. }
  destruct (env (_ ++ [_]) (Send (send request) _)) as [y|e4] eqn:H4; simpl.
  2:{ intros [= <-]. do 3 right. eauto. }
  rewrite decide_True by set_solver. done.
Qed.

Lemma order_errors_witness :
  let w := day (layout := oldest_first) calm [on_duty "ann" ["grill"] 1 2] dawn in
  Failure 2 = KeyError "speciality" ∨ Failure 2 = UnboundLocalError "sta" ∨
  Failure 2 = AttributeError "send" ∨ ∃ log c, stormy 2 log c = Raised (Failure 2).
Proof.
  intros w.
  apply (order_errors (layout := oldest_first) (stormy 2) w (an_order "grill")
           (Some "grill") (Failure 2) eq_refl).
  - apply day_consistent, dawn_consistent.
  - vm_compute. reflexivity.
Defined.
